(** * Dual screen mirror: a shallow embedding of [src/main.py]

    The development models the three loops the program runs:
    - [macos_find_window_id] and [macos_capture_window_bgr]: the CoreGraphics
      window lookup and window capture, with the OS answers as data;
    - [mjpeg_stream]: the per-client generator that acquires a frame (window
      capture, falling back to an mss grab of the fixed region), encodes it
      and yields a multipart chunk;
    - [keep_uxplay_windows_positioned]: the reconciler thread that moves the
      two UxPlay windows until each move succeeds once.

    Python values that can raise are modelled in a small error monad
    [result]; wall-clock readings of [time.time()] are rationals [Q]. *)

From Stdlib Require Import ZArith QArith Qminmax Qround List String Ascii Bool Lia.
Import ListNotations.
Open Scope bool_scope.
Open Scope Z_scope.

(* ------------------------------------------------------------------ *)
(** ** Python exceptions and a small error monad *)

Inductive exn : Type :=
| ValueError      (* numpy reshape of a buffer of the wrong size *)
| ScreenGrabError (* mss failing to grab the fallback region *)
| CvError         (* cv2.error, raised by cv2.cvtColor or cv2.imencode *).

Inductive result (A : Type) : Type :=
| Ok (a : A)
| Raise (e : exn).
Arguments Ok {A} a.
Arguments Raise {A} e.

Definition bind {A B : Type} (m : result A) (k : A -> result B) : result B :=
  match m with
  | Ok a => k a
  | Raise e => Raise e
  end.

Notation "x <- m ;; k" := (bind m (fun x => k))
  (at level 61, m at next level, right associativity).

(* ------------------------------------------------------------------ *)
(** ** Configuration constants *)

Definition TARGET_FPS : Z := 24.
Definition AUTO_POSITION_WINDOWS : bool := true.
Definition AUTO_POSITION_INTERVAL_SEC : Q := 2%Q.
(** [frame_delay = 1.0 / TARGET_FPS] *)
Definition frame_delay : Q := 1 / inject_Z TARGET_FPS.
(** the literal [0.8] of the lookup throttle in [mjpeg_stream] *)
Definition LOOKUP_INTERVAL : Q := 4 # 5.

Definition IPHONE_NAME : string := "Reflector-iPhone".
Definition IPAD_NAME : string := "Reflector-iPad".

(* ------------------------------------------------------------------ *)
(** ** Frames and the BGRA -> BGR conversion *)

(** A BGR frame: rows of (b, g, r) pixels, bytes as [Z] in [0, 255]. *)
Definition pixel : Type := (Z * Z * Z)%type.
Definition frame : Type := list (list pixel).

(** [cv2.cvtColor(row, COLOR_BGRA2BGR)] on one row of 4-byte pixels. *)
Fixpoint bgra_to_bgr (row : list Z) : list pixel :=
  match row with
  | b :: g :: r :: _a :: rest => (b, g, r) :: bgra_to_bgr rest
  | _ => []
  end.

(** [arr.reshape((rows, n))] of a flat buffer, once the size is known to fit. *)
Fixpoint chunks (n rows : nat) (l : list Z) : list (list Z) :=
  match rows with
  | O => []
  | S k => firstn n l :: chunks n k (skipn n l)
  end.

(* ------------------------------------------------------------------ *)
(** ** [macos_capture_window_bgr] *)

(** What [CGDataProviderCopyData] returns when not null: the byte pointer
    ([CFDataGetBytePtr], null or not), and the bytes behind it, whose count
    is [CFDataGetLength]. *)
Record CFData := {
  cf_ptr_null : bool;
  cf_bytes : list Z;
}.

(** The CGImage returned by [CGWindowListCreateImage] when not null. *)
Record CGImage := {
  img_width : Z;           (* CGImageGetWidth *)
  img_height : Z;          (* CGImageGetHeight *)
  img_bits_per_pixel : Z;  (* CGImageGetBitsPerPixel *)
  img_bytes_per_row : Z;   (* CGImageGetBytesPerRow *)
  img_data : option CFData (* CGDataProviderCopyData, None when null *)
}.

(** Lines 275-279: [np.frombuffer], the two reshapes around the slice
    [arr[:, : width * 4]], and the colour conversion.  numpy's reshape
    raises [ValueError] when the element count does not match the shape. *)
Definition reshape_window_pixels (width height bytes_per_row : Z) (raw : list Z)
  : result frame :=
  if negb (Z.of_nat (List.length raw) =? height * bytes_per_row) then Raise ValueError
  else
    let rows := chunks (Z.to_nat bytes_per_row) (Z.to_nat height) raw in
    let sliced := map (firstn (Z.to_nat (width * 4))) rows in
    (* after the slice every row holds min(bytes_per_row, 4 * width) bytes *)
    if negb (height * Z.min bytes_per_row (width * 4) =? height * width * 4)
    then Raise ValueError
    else Ok (map bgra_to_bgr sliced).

(** [macos_capture_window_bgr(window_id)]: [cg_ok] is the result of
    [_macos_init_window_capture()], [image] what [CGWindowListCreateImage]
    returned for this window ([None] for a null image).  [Ok None] is the
    Python [None]. *)
Definition macos_capture_window_bgr (cg_ok : bool) (image : option CGImage)
  : result (option frame) :=
  if negb cg_ok then Ok None else
  match image with
  | None => Ok None
  | Some img =>
      let width := img_width img in
      let height := img_height img in
      if (width <=? 0) || (height <=? 0) then Ok None
      else if negb (img_bits_per_pixel img =? 32) then Ok None
      else
        match img_data img with
        | None => Ok None
        | Some d =>
            let length := Z.of_nat (List.length (cf_bytes d)) in
            if cf_ptr_null d || (length <=? 0) then Ok None
            else
              f <- reshape_window_pixels width height (img_bytes_per_row img) (cf_bytes d) ;;
              Ok (Some f)
        end
  end.

(* ------------------------------------------------------------------ *)
(** ** Multipart framing *)

Definition bytes_of_string (s : string) : list Z :=
  map (fun c => Z.of_nat (nat_of_ascii c)) (list_ascii_of_string s).

Definition CRLF : string :=
  String (ascii_of_nat 13) (String (ascii_of_nat 10) EmptyString).

(** The boundary token shared by the chunks and the response mimetype. *)
Definition BOUNDARY : string := "frame".

(** Lines 475-478: [b"--frame\r\n" b"Content-Type: image/jpeg\r\n\r\n" + data + b"\r\n"]. *)
Definition mjpeg_chunk (data : list Z) : list Z :=
  bytes_of_string "--frame" ++ bytes_of_string CRLF
  ++ bytes_of_string "Content-Type: image/jpeg" ++ bytes_of_string CRLF
  ++ bytes_of_string CRLF ++ data ++ bytes_of_string CRLF.

(** Lines 556 and 564: the [mimetype] of the [Response] of both stream routes. *)
Definition stream_mimetype : string := "multipart/x-mixed-replace; boundary=frame".

(** [stream_iphone] and [stream_ipad]: the response's mimetype and the
    title substring / region handed to [mjpeg_stream]. *)
Record Response := { resp_mimetype : string; resp_title : option string }.
Definition stream_iphone : Response :=
  {| resp_mimetype := stream_mimetype; resp_title := Some IPHONE_NAME |}.
Definition stream_ipad : Response :=
  {| resp_mimetype := stream_mimetype; resp_title := Some IPAD_NAME |}.

(* ------------------------------------------------------------------ *)
(** ** [mjpeg_stream] *)

(** What the environment answers during one iteration of [while True]. *)
Record Tick := {
  tk_now : Q;                       (* time.time() at line 444 *)
  tk_lookup : option Z;             (* macos_find_window_id(...), if called *)
  tk_image : option CGImage;        (* CGWindowListCreateImage(...), if called *)
  tk_grab : result (list (list Z)); (* sct.grab(region): BGRA rows, or raises *)
  tk_elapsed : Q                    (* wall time spent capturing and encoding;
                                       never read by the source *)
}.

(** The generator's local variables that survive an iteration. *)
Record StreamState := {
  window_id : option Z;
  last_window_lookup : Q;
}.

Definition stream_init : StreamState :=
  {| window_id := None; last_window_lookup := 0%Q |}.

(** Observable effects of an iteration, in order. *)
Inductive event : Type :=
| EvLookup (t : Q)        (* a call of macos_find_window_id at time t *)
| EvCapture (id : Z)      (* a call of macos_capture_window_bgr(id) *)
| EvGrab                  (* a call of sct.grab(region) *)
| EvYield (chunk : list Z)
| EvSleep (d : Q).

(** Python truthiness of the optional title argument. *)
Definition truthy (s : option string) : bool :=
  match s with
  | Some t => negb (String.eqb t EmptyString)
  | None => false
  end.

(** Lines 462-463: [np.array(img)] has the shape (height, width, 4) of
    the grab, and [cv2.cvtColor(frame, COLOR_BGRA2BGR)] raises [cv2.error]
    on an empty array (no rows, or rows of no pixels). *)
Definition cvt_bgra2bgr (raw : list (list Z)) : result frame :=
  match raw with
  | [] => Raise CvError
  | row :: _ =>
      if (List.length row =? 0)%nat then Raise CvError
      else Ok (map bgra_to_bgr raw)
  end.

(** A trace without its final sleep, if it ends with one. *)
Fixpoint drop_pending_sleep (evs : list event) : list event :=
  match evs with
  | [] => []
  | [EvSleep _] => []
  | e :: r => e :: drop_pending_sleep r
  end.

Section Stream.
(** [sys.platform == "darwin"] *)
Variable darwin : bool.
(** [_macos_init_window_capture()] *)
Variable cg_ok : bool.
(** [cv2.imencode(".jpg", frame, ...)]: [Raise CvError] when it raises
    [cv2.error], [Ok None] when it returns with [ok] false, [Ok (Some buf)]
    otherwise. *)
Variable imencode : frame -> result (option (list Z)).
(** the [window_title_substring] argument *)
Variable window_title_substring : option string.

(** Lines 441-452: the window lookup and window capture, returning the
    new state, the frame if the window capture produced one, and the
    events. *)
Definition window_phase (st : StreamState) (tk : Tick)
  : result (StreamState * option frame * list event) :=
  if truthy window_title_substring && darwin then
    let now := tk_now tk in
    let '(st1, evs1) :=
      if (match window_id st with None => true | Some _ => false end)
         && Qle_bool LOOKUP_INTERVAL (now - last_window_lookup st)%Q
      then ({| window_id := tk_lookup tk; last_window_lookup := now |},
            [EvLookup now])
      else (st, []) in
    match window_id st1 with
    | Some id =>
        fr <- macos_capture_window_bgr cg_ok (tk_image tk) ;;
        match fr with
        | Some f => Ok (st1, Some f, evs1 ++ [EvCapture id])
        | None =>
            Ok ({| window_id := None;
                   last_window_lookup := last_window_lookup st1 |},
                None, evs1 ++ [EvCapture id])
        end
    | None => Ok (st1, None, evs1)
    end
  else Ok (st, None, []).

(** Lines 441-464: frame acquisition, with the region grab as fallback. *)
Definition acquire (st : StreamState) (tk : Tick)
  : result (StreamState * frame * list event) :=
  p <- window_phase st tk ;;
  let '(st1, fr, evs1) := p in
  match fr with
  | Some f => Ok (st1, f, evs1)
  | None =>
      raw <- tk_grab tk ;;
      f <- cvt_bgra2bgr raw ;;
      Ok (st1, f, evs1 ++ [EvGrab])
  end.

(** One iteration of [while True] (lines 441-479); [continue] on a failed
    encode ends the iteration without yield and without sleep. *)
Definition stream_step (st : StreamState) (tk : Tick)
  : result (StreamState * list event) :=
  p <- acquire st tk ;;
  let '(st1, f, evs1) := p in
  enc <- imencode f ;;
  match enc with
  | None => Ok (st1, evs1)
  | Some data => Ok (st1, evs1 ++ [EvYield (mjpeg_chunk data); EvSleep frame_delay])
  end.

(** The iterations of the generator, in order, until one raises; the
    events of the raising iteration are not recorded. *)
Fixpoint stream_iters (st : StreamState) (tks : list Tick)
  : list event * option exn :=
  match tks with
  | [] => ([], None)
  | tk :: rest =>
      match stream_step st tk with
      | Raise e => ([], Some e)
      | Ok (st', evs) =>
          let '(evs', r) := stream_iters st' rest in (evs ++ evs', r)
      end
  end.

(** A run of the generator through the iterations [tks].  The generator
    executes only while the client waits for a chunk and stays suspended at
    [yield] until the client asks for the next one, which it may never do.
    So a sleep is part of the run when another iteration follows it (the
    client resumed the generator), but when the run ends without an
    exception after a yield, the sleep after that last yield has not
    happened. *)
Definition stream_run (st : StreamState) (tks : list Tick)
  : list event * option exn :=
  let '(evs, r) := stream_iters st tks in
  match r with
  | None => (drop_pending_sleep evs, None)
  | Some e => (evs, Some e)
  end.
End Stream.

(** Times of the lookups in an event trace. *)
Fixpoint lookup_times (evs : list event) : list Q :=
  match evs with
  | [] => []
  | EvLookup t :: r => t :: lookup_times r
  | _ :: r => lookup_times r
  end.

(** Handles captured through in an event trace. *)
Fixpoint captures (evs : list event) : list Z :=
  match evs with
  | [] => []
  | EvCapture id :: r => id :: captures r
  | _ :: r => captures r
  end.

(** Neither a yield nor a sleep. *)
Definition not_output (e : event) : Prop :=
  match e with
  | EvYield _ | EvSleep _ => False
  | _ => True
  end.

(* ------------------------------------------------------------------ *)
(** ** [macos_find_window_id] *)

(** Python strings as sequences of Unicode code points. *)
Definition pystr : Type := list Z.

(** The code points of an ASCII literal. *)
Definition codepoints (s : string) : pystr :=
  map (fun c => Z.of_nat (nat_of_ascii c)) (list_ascii_of_string s).

Fixpoint prefixb (p s : pystr) : bool :=
  match p, s with
  | [], _ => true
  | _ :: _, [] => false
  | a :: p', b :: s' => Z.eqb a b && prefixb p' s'
  end.

(** Python's [needle in hay] on strings. *)
Fixpoint containsb (needle hay : pystr) : bool :=
  prefixb needle hay ||
  match hay with
  | [] => false
  | _ :: r => containsb needle r
  end.

(** One dictionary of the array returned by [CGWindowListCopyWindowInfo]. *)
Record WinInfo := {
  (** the [kCGWindowName] value after conversion to a Python string;
      [None] when the ref is null or [CFStringGetCString] fails *)
  wi_name : option pystr;
  (** the [kCGWindowNumber] value: [None] when the ref is null,
      [Some None] when [CFNumberGetValue] fails, [Some (Some n)] otherwise *)
  wi_number : option (option Z);
}.

(** [_macos_cfstring_to_str]: "" for a null ref or a failed conversion. *)
Definition cfstring_to_str (s : option pystr) : pystr :=
  match s with Some t => t | None => [] end.

(** Python truthiness of a string. *)
Definition nonempty (s : pystr) : bool :=
  match s with [] => false | _ => true end.

Section Locator.
(** [str.lower()]: Python's full Unicode lowercase mapping.  It is left
    abstract: what is proved about the locator holds for any mapping. *)
Variable py_lower : pystr -> pystr.

(** Lines 200-223: the scan over the array; a [None] entry is a null [info]. *)
Fixpoint scan_windows (needle : pystr) (infos : list (option WinInfo)) : option Z :=
  match infos with
  | [] => None
  | None :: rest => scan_windows needle rest
  | Some info :: rest =>
      let name := cfstring_to_str (wi_name info) in
      if nonempty needle && negb (containsb needle (py_lower name))
      then scan_windows needle rest
      else
        match wi_number info with
        | None => scan_windows needle rest
        | Some None => scan_windows needle rest
        | Some (Some n) => Some n
        end
  end.

(** [macos_find_window_id(title_substring)]: [cg_ok] is the result of
    [_macos_init_window_capture()], [registry] what
    [CGWindowListCopyWindowInfo] returned ([None] for null); the needle is
    [(title_substring or "").lower()]. *)
Definition macos_find_window_id (cg_ok : bool) (registry : option (list (option WinInfo)))
    (title_substring : pystr) : option Z :=
  if negb cg_ok then None else
  match registry with
  | None => None
  | Some infos => scan_windows (py_lower title_substring) infos
  end.
End Locator.

(* ------------------------------------------------------------------ *)
(** ** [keep_uxplay_windows_positioned] *)

(** The outcome of one [set_window_bounds] call (the osascript run) and the
    wall time it took. *)
Record Move := { mv_ok : bool; mv_dur : Q }.

(** The reconciler's environment: when [stop_event.set()] happens, if ever,
    and the outcome of the [j]-th [set_window_bounds] call. *)
Record ReconEnv := {
  stop_at : option Q;
  moves : nat -> Move;
}.

Inductive revent : Type :=
| RMove (title : string) (start : Q) (ok : bool) (* set_window_bounds(title, ...) *)
| RSleep (d : Q).

(** [stop_event.is_set()] at time [t]. *)
Definition is_set (env : ReconEnv) (t : Q) : bool :=
  match stop_at env with
  | Some ts => Qle_bool ts t
  | None => false
  end.

(** [if not done: done = set_window_bounds(title, ...)] at time [t], using
    the [k]-th call outcome.  Returns the events, the new time, the call
    counter and the flag. *)
Definition move_if_needed (env : ReconEnv) (title : string) (t : Q) (k : nat) (done : bool)
  : list revent * Q * nat * bool :=
  if done then ([], t, k, done)
  else
    let m := moves env k in
    ([RMove title t (mv_ok m)], (t + mv_dur m)%Q, S k, mv_ok m).

(** Lines 342-351: the [while not stop_event.is_set()] loop from time [t],
    for at most [fuel] tests of the loop condition.  The second component
    is the return time, [None] when the fuel ran out first. *)
Fixpoint recon_loop (env : ReconEnv) (fuel : nat) (t : Q) (k : nat)
    (iphone_done ipad_done : bool) : list revent * option Q :=
  match fuel with
  | O => ([], None)
  | S fuel' =>
      if is_set env t then ([], Some t) else
      let '(ev1, t1, k1, iphone_done') := move_if_needed env IPHONE_NAME t k iphone_done in
      let '(ev2, t2, k2, ipad_done') := move_if_needed env IPAD_NAME t1 k1 ipad_done in
      if iphone_done' && ipad_done' then (ev1 ++ ev2, Some t2)
      else
        let '(evs, r) :=
          recon_loop env fuel' (t2 + AUTO_POSITION_INTERVAL_SEC)%Q k2 iphone_done' ipad_done' in
        (ev1 ++ ev2 ++ [RSleep AUTO_POSITION_INTERVAL_SEC] ++ evs, r)
  end.

(** [keep_uxplay_windows_positioned(stop_event)] started at time [t0];
    [darwin] is [sys.platform == "darwin"], [auto] the value of
    [AUTO_POSITION_WINDOWS]. *)
Definition keep_uxplay_windows_positioned (darwin auto : bool) (env : ReconEnv)
    (fuel : nat) (t0 : Q) : list revent * option Q :=
  if negb darwin then ([], Some t0)
  else if negb auto then ([], Some t0)
  else recon_loop env fuel t0 0 false false.

(* ------------------------------------------------------------------ *)
(** ** [_macos_init_window_capture] *)

(** The module globals: [_MACOS_CG] is [None], [False] or a loaded CDLL;
    [_MACOS_CF] and [_MACOS_CF_KEYS] are [None] or set. *)
Inductive cg_global : Type := CGUnset | CGFalse | CGLoaded.

Record InitState := {
  macos_cg : cg_global;
  macos_cf_set : bool;
  macos_keys_set : bool;
}.

Definition init_globals : InitState :=
  {| macos_cg := CGUnset; macos_cf_set := false; macos_keys_set := false |}.

(** Lines 82-170: one call, where [darwin] is [sys.platform == "darwin"] and
    [load_ok] tells whether both [ctypes.CDLL] calls succeed; the
    [argtypes]/[restype] setup that follows them is taken not to raise.
    Returns the result, the new globals, and whether a load was attempted. *)
Definition macos_init_window_capture (darwin load_ok : bool) (st : InitState)
  : bool * InitState * bool :=
  match macos_cg st with
  | CGFalse => (false, st, false)
  | _ =>
    if (match macos_cg st with CGLoaded => true | _ => false end)
       && macos_cf_set st && macos_keys_set st
    then (true, st, false)
    else if negb darwin then
      (false, {| macos_cg := CGFalse; macos_cf_set := macos_cf_set st;
                 macos_keys_set := macos_keys_set st |}, false)
    else if load_ok then
      (true, {| macos_cg := CGLoaded; macos_cf_set := true; macos_keys_set := true |}, true)
    else
      (false, {| macos_cg := CGFalse; macos_cf_set := macos_cf_set st;
                 macos_keys_set := macos_keys_set st |}, true)
  end.

(** A sequence of calls, each with its own [load_ok] outcome: the results
    and the number of load attempts. *)
Fixpoint init_calls (darwin : bool) (st : InitState) (outcomes : list bool)
  : list bool * nat :=
  match outcomes with
  | [] => ([], O)
  | ok :: rest =>
      let '(r, st', tried) := macos_init_window_capture darwin ok st in
      let '(rs, n) := init_calls darwin st' rest in
      (r :: rs, (if tried then 1 else 0) + n)%nat
  end.

(* ------------------------------------------------------------------ *)
(** ** [upload_logo]: the downscaling of a decoded logo *)

Definition MAX_LOGO_BYTES : Z := 5 * 1024 * 1024.
Definition MAX_LOGO_DIMENSION : Z := 1024.
Definition LOGO_FILENAME : string := "logo.png".

(** A decoded image: [img.shape[:2]] and its pixel data. *)
Record Image := { im_height : Z; im_width : Z; im_data : list Z }.

(** The file [LOGO_PATH]: the image written there and what
    [os.path.getmtime] answers ([None] when it raises [OSError]). *)
Record LogoFile := { lf_image : Image; lf_mtime : option Z }.

(** Python's [round] on a rational: to nearest, ties to even. *)
Definition py_round (q : Q) : Z :=
  let fl := Qfloor q in
  let frac := (q - inject_Z fl)%Q in
  match Qcompare frac (1 # 2) with
  | Lt => fl
  | Gt => fl + 1
  | Eq => if Z.even fl then fl else fl + 1
  end.

Section Upload.
(** [cv2.imdecode(arr, cv2.IMREAD_UNCHANGED)] *)
Variable imdecode : list Z -> option Image.
(** the pixels [cv2.resize] computes for a requested [(w, h)] *)
Variable resample : Image -> Z -> Z -> list Z.
(** whether [cv2.imwrite] stores the file, and the mtime it then has *)
Variable imwrite_ok : bool.
Variable write_mtime : option Z.

(** [cv2.resize(img, (new_w, new_h), ...)]: an image of shape [(new_h, new_w)]. *)
Definition cv2_resize (img : Image) (w h : Z) : Image :=
  {| im_height := h; im_width := w; im_data := resample img w h |}.

(** Lines 530-536: downscaling to [MAX_LOGO_DIMENSION]; [width * scale]
    is computed on exact rationals. *)
Definition fit_logo (img : Image) : Image :=
  let height := im_height img in
  let width := im_width img in
  let max_dim := Z.max height width in
  if max_dim >? MAX_LOGO_DIMENSION then
    let scale := (inject_Z MAX_LOGO_DIMENSION / inject_Z max_dim)%Q in
    let new_w := Z.max 1 (py_round (inject_Z width * scale)) in
    let new_h := Z.max 1 (py_round (inject_Z height * scale)) in
    cv2_resize img new_w new_h
  else img.

(** Lines 512-540: [request.files.get("logo")] is [None] or a file with
    its filename (a [FileStorage] is falsy when the filename is empty)
    and its bytes.  Every path ends in a redirect; the result is the
    logo file afterwards. *)
Definition upload_logo (file : option (string * list Z)) (logo : option LogoFile)
  : option LogoFile :=
  match file with
  | None => logo
  | Some (filename, data) =>
      if String.eqb filename EmptyString then logo
      else match data with
      | [] => logo
      | _ =>
          if Z.of_nat (List.length data) >? MAX_LOGO_BYTES then logo
          else match imdecode data with
          | None => logo
          | Some img =>
              let img' := fit_logo img in
              if imwrite_ok then Some {| lf_image := img'; lf_mtime := write_mtime |}
              else logo
          end
      end
  end.
End Upload.

(** A sequence of [POST /logo] requests, each with the uploaded file and
    the outcome of its [cv2.imwrite] (whether it stored the file, and the
    mtime it then has); the result is the logo file afterwards. *)
Definition upload_requests (imdecode : list Z -> option Image)
    (resample : Image -> Z -> Z -> list Z)
    (reqs : list (option (string * list Z) * bool * option Z))
    (logo : option LogoFile) : option LogoFile :=
  fold_left (fun lg '(file, ok, mt) => upload_logo imdecode resample ok mt file lg) reqs logo.

(** The stored logo, if any, has both sides between 1 and
    [MAX_LOGO_DIMENSION]. *)
Definition logo_within (logo : option LogoFile) : Prop :=
  match logo with
  | None => True
  | Some lf => 1 <= im_height (lf_image lf) <= MAX_LOGO_DIMENSION /\
               1 <= im_width (lf_image lf) <= MAX_LOGO_DIMENSION
  end.

(* ------------------------------------------------------------------ *)
(** ** Output projection of a stream trace *)

(** The yields and sleeps of a trace, in order. *)
Fixpoint outputs (evs : list event) : list event :=
  match evs with
  | [] => []
  | (EvYield _ as e) :: r | (EvSleep _ as e) :: r => e :: outputs r
  | _ :: r => outputs r
  end.

(* ------------------------------------------------------------------ *)
(** ** Trace predicates and concrete inputs *)

(** Encoder stand-ins for concrete runs: one that succeeds, one that
    returns with [ok] false, one that raises [cv2.error]. *)
Definition encode_model (_ : frame) : result (option (list Z)) :=
  Ok (Some [255; 216; 255; 217]).

(** A well-formed 1x1 window image, and a malformed one whose data length
    (12) is not [height * bytes_per_row] (16). *)
Definition good_image : CGImage :=
  {| img_width := 1; img_height := 1; img_bits_per_pixel := 32;
     img_bytes_per_row := 4;
     img_data := Some {| cf_ptr_null := false; cf_bytes := [10; 20; 30; 255] |} |}.

Definition short_image : CGImage :=
  {| img_width := 2; img_height := 2; img_bits_per_pixel := 32;
     img_bytes_per_row := 8;
     img_data := Some {| cf_ptr_null := false; cf_bytes := repeat 0 12 |} |}.

(** A well-formed 2x2 window image whose rows carry 4 bytes of padding
    (12 bytes per row). *)
Definition padded_image : CGImage :=
  {| img_width := 2; img_height := 2; img_bits_per_pixel := 32;
     img_bytes_per_row := 12;
     img_data := Some {| cf_ptr_null := false;
                         cf_bytes := [1; 2; 3; 255; 4; 5; 6; 255; 0; 0; 0; 0;
                                      7; 8; 9; 255; 10; 11; 12; 255; 0; 0; 0; 0] |} |}.

(** A screen region grab of one BGRA pixel. *)
Definition region_pixels : list (list Z) := [[1; 2; 3; 255]].

(** An iteration right after start: the lookup finds window 7, whose
    capture returns [img]. *)
Definition tick_with (img : option CGImage) : Tick :=
  {| tk_now := 1%Q; tk_lookup := Some 7; tk_image := img;
     tk_grab := Ok region_pixels; tk_elapsed := 1 # 100 |}.

Definition moves_of (title : string) (e : revent) : Prop :=
  match e with
  | RMove ti _ _ => ti = title
  | RSleep _ => False
  end.

Definition succeeded (title : string) (l : list revent) : Prop :=
  exists t, In (RMove title t true) l.

Definition once_positioned (title : string) (l : list revent) : Prop :=
  forall pre t post, l = pre ++ RMove title t true :: post ->
  Forall (fun e => ~ moves_of title e) post.

(** An entry of the window registry that the locator returns for
    [needle] under the lowercase mapping [py_lower]. *)
Definition usable_window (py_lower : pystr -> pystr) (needle : pystr)
    (e : option WinInfo) (n : Z) : Prop :=
  exists info, e = Some info /\
    containsb needle (py_lower (cfstring_to_str (wi_name info))) = true /\
    wi_number info = Some (Some n).

(** An entry as [CGWindowListCopyWindowInfo] produces it: a dictionary
    (never null) whose required [kCGWindowNumber] is a readable number. *)
Definition registry_entry_ok (e : option WinInfo) : Prop :=
  exists info n, e = Some info /\ wi_number info = Some (Some n).

(** [str.lower()] on code points below 128, where it maps A-Z to a-z and
    keeps the rest; the lowercase mapping of the concrete runs. *)
Definition lower_cp (c : Z) : Z := if (65 <=? c) && (c <=? 90) then c + 32 else c.
Definition py_lower_ascii (s : pystr) : pystr := map lower_cp s.

(** An iteration without window capture whose region grab is one pixel. *)
Definition tick_region : Tick :=
  {| tk_now := 0%Q; tk_lookup := None; tk_image := None;
     tk_grab := Ok region_pixels; tk_elapsed := 0%Q |}.

(** An iteration without window capture whose region grab is empty. *)
Definition tick_empty : Tick :=
  {| tk_now := 0%Q; tk_lookup := None; tk_image := None;
     tk_grab := Ok []; tk_elapsed := 0%Q |}.

(** A window registry: an untitled window, then two windows whose titles
    contain "Reflector-iPhone" in different cases. *)
Definition registry_sample : option (list (option WinInfo)) :=
  Some [Some {| wi_name := None; wi_number := Some (Some 3) |};
        Some {| wi_name := Some (codepoints "Finder"); wi_number := Some (Some 5) |};
        Some {| wi_name := Some (codepoints "UxPlay REFLECTOR-iphone");
                wi_number := Some (Some 42) |};
        Some {| wi_name := Some (codepoints "Reflector-iPhone");
                wi_number := Some (Some 43) |}].

(** A reconciler whose moves all fail after one second each, stopped at
    [stop] (or never). *)
Definition env_failing (stop : option Q) : ReconEnv :=
  {| stop_at := stop; moves := fun _ => {| mv_ok := false; mv_dur := 1%Q |} |}.

(** A reconciler whose moves all succeed at once. *)
Definition env_succeeding : ReconEnv :=
  {| stop_at := None; moves := fun _ => {| mv_ok := true; mv_dur := 0%Q |} |}.

(** The number of [set_window_bounds] calls in a reconciler trace. *)
Fixpoint move_count (l : list revent) : nat :=
  match l with
  | [] => O
  | RMove _ _ _ :: r => S (move_count r)
  | RSleep _ :: r => move_count r
  end.

(** The total wall time of the [m] calls numbered from [k]. *)
Fixpoint sum_durs (env : ReconEnv) (k m : nat) : Q :=
  match m with
  | O => 0%Q
  | S m' => (mv_dur (moves env k) + sum_durs env (S k) m')%Q
  end.

Definition is_move (e : revent) : Prop :=
  match e with
  | RMove _ _ _ => True
  | RSleep _ => False
  end.

(** A trace that stops where a round of the loop begins: nothing yet, or
    the sleep that ends the previous round. *)
Definition round_boundary (l : list revent) : Prop :=
  l = [] \/ exists p d, l = p ++ [RSleep d].

(* ------------------------------------------------------------------ *)
(** ** [main]: the shutdown in [finally] *)

(** A UxPlay process at shutdown: whether [poll()] is [None], and whether
    [terminate()] and [wait(timeout=3)] return normally. *)
Record UxProc := { px_running : bool; px_terminate_ok : bool; px_wait_ok : bool }.

Inductive sevent : Type :=
| SetStop                 (* window_stop_event.set() *)
| SPrint (s : string)
| Terminate (label : string)
| Wait3 (label : string)
| Kill (label : string).

(** Lines 602-609 for one process; the f-string's doubled braces print
    [{label}] literally. *)
Definition shutdown_proc (p : UxProc) (label : string) : list sevent :=
  if px_running p then
    SPrint "[!] Terminating {label} UxPlay..." :: Terminate label ::
      (if px_terminate_ok p
       then Wait3 label :: (if px_wait_ok p then [] else [Kill label])
       else [Kill label])
  else [].

(** Lines 600-609: the [finally] block of [main]. *)
Definition main_shutdown (iphone_proc ipad_proc : UxProc) : list sevent :=
  SetStop :: shutdown_proc iphone_proc "iPhone" ++ shutdown_proc ipad_proc "iPad".

(** The B, G, R bytes at offset [k] of a BGRA buffer. *)
Definition bgr_at (raw : list Z) (k : nat) : pixel :=
  (nth k raw 0, nth (k + 1) raw 0, nth (k + 2) raw 0).


(** Decoded logos: one larger than [MAX_LOGO_DIMENSION], one within it,
    with a resampler that drops the pixels, and two decoders. *)
Definition logo_large : Image := {| im_height := 2048; im_width := 1000; im_data := [] |}.
Definition resample_none (_ : Image) (_ _ : Z) : list Z := [].
Definition decode_large (_ : list Z) : option Image := Some logo_large.

(* ================================================================== *)
(** * Properties *)

From Stdlib Require Import Lqa.

(** Small sanity checks of the embedding. *)
Example frame_delay_value : frame_delay = 1 # 24.
Proof. reflexivity. Qed.

Example contains_example :
  containsb (py_lower_ascii (codepoints "reflector-IPHONE"))
    (py_lower_ascii (codepoints "UxPlay: Reflector-iPhone")) = true.
Proof. reflexivity. Qed.

Example capture_good :
  macos_capture_window_bgr true (Some good_image) = Ok (Some [[(10, 20, 30)]]).
Proof. reflexivity. Qed.

(** ** C10: capture raises on an image whose buffer does not fit its shape *)

(** C10 (code_bug): [macos_capture_window_bgr] is not total: for a 2x2,
    32 bpp image with 8 bytes per row whose data holds 12 bytes, none of the
    guards returns [None] and the reshape raises [ValueError]. *)
Theorem capture_raises_on_short_buffer :
  macos_capture_window_bgr true (Some short_image) = Raise ValueError.
Proof. reflexivity. Qed.

(** ** C1: frame acquisition *)

(** C1 (code_bug): with the window found and the fallback region grab
    succeeding, frame acquisition still raises when the window capture
    raises (same defect as C10); so the iteration yields no frame. *)
Theorem acquire_raises_despite_fallback :
  tk_grab (tick_with (Some short_image)) = Ok region_pixels /\
  acquire true true (Some IPHONE_NAME) stream_init (tick_with (Some short_image))
    = Raise ValueError /\
  stream_run true true encode_model (Some IPHONE_NAME) stream_init
    [tick_with (Some short_image); tick_with (Some good_image)] = ([], Some ValueError).
Proof. repeat split; reflexivity. Qed.

Section StreamProofs.
Variable darwin : bool.
Variable cg_ok : bool.
Variable imencode : frame -> result (option (list Z)).
Variable title : option string.

Lemma window_phase_events st tk st1 fr evs :
  window_phase darwin cg_ok title st tk = Ok (st1, fr, evs) ->
  Forall not_output evs.
Proof.
  unfold window_phase.
  destruct (truthy title && darwin); [|intros H; inversion H; constructor].
  destruct (_ && _);
    [destruct (tk_lookup tk) as [id|] | destruct (window_id st) as [id|]]; simpl;
    try (intros H; inversion H; subst; repeat constructor; fail);
    destruct (macos_capture_window_bgr cg_ok (tk_image tk)) as [[f|]|e]; simpl;
    intros H; inversion H; subst; repeat constructor.
Qed.

Lemma acquire_events st tk st1 f evs :
  acquire darwin cg_ok title st tk = Ok (st1, f, evs) ->
  Forall not_output evs.
Proof.
  unfold acquire.
  destruct (window_phase darwin cg_ok title st tk) as [[[st0 fr] evs0]|e] eqn:W;
    simpl; [|discriminate].
  apply window_phase_events in W.
  destruct fr as [f0|].
  - intros H; inversion H; subst; exact W.
  - destruct (tk_grab tk) as [raw|e]; simpl; [|discriminate].
    destruct (cvt_bgra2bgr raw); simpl; [|discriminate].
    intros H; inversion H; subst.
    apply Forall_app; split; [exact W | repeat constructor].
Qed.



End StreamProofs.

Lemma captures_app l1 l2 : captures (l1 ++ l2) = captures l1 ++ captures l2.
Proof. induction l1 as [|[] l1 IH]; simpl; congruence. Qed.

Lemma lookup_times_app l1 l2 :
  lookup_times (l1 ++ l2) = lookup_times l1 ++ lookup_times l2.
Proof. induction l1 as [|[] l1 IH]; simpl; congruence. Qed.

Lemma in_captures id l : In (EvCapture id) l -> In id (captures l).
Proof.
  induction l as [|e l IH]; simpl; [tauto|].
  intros [E|H]; [subst e; simpl; left; reflexivity|].
  destruct e; simpl; auto.
Qed.

Lemma in_lookup_times t l : In (EvLookup t) l -> In t (lookup_times l).
Proof.
  induction l as [|e l IH]; simpl; [tauto|].
  intros [E|H]; [subst e; simpl; left; reflexivity|].
  destruct e; simpl; auto.
Qed.

Section StreamSteps.
Variable darwin : bool.
Variable cg_ok : bool.
Variable imencode : frame -> result (option (list Z)).
Variable title : option string.

(** An iteration is its window phase followed by events that neither
    look up nor capture; the state it leaves is the window phase's. *)
Lemma stream_step_decomp st tk st' evs :
  stream_step darwin cg_ok imencode title st tk = Ok (st', evs) ->
  exists fr evs1 extra,
    window_phase darwin cg_ok title st tk = Ok (st', fr, evs1) /\
    evs = evs1 ++ extra /\ captures extra = [] /\ lookup_times extra = [].
Proof.
  unfold stream_step, acquire.
  destruct (window_phase darwin cg_ok title st tk) as [[[st1 fr] evs1]|e] eqn:W;
    simpl; [|discriminate].
  destruct fr as [f|].
  - simpl. destruct (imencode f) as [[data|]|e]; simpl; [| |discriminate];
      intros H; injection H as <- <-;
      exists (Some f), evs1;
      [exists [EvYield (mjpeg_chunk data); EvSleep frame_delay] | exists []];
      rewrite ?app_nil_r; repeat split; reflexivity.
  - destruct (tk_grab tk) as [raw|e]; simpl; [|discriminate].
    destruct (cvt_bgra2bgr raw) as [f|e]; simpl; [|discriminate].
    destruct (imencode f) as [[data|]|e]; simpl; [| |discriminate]; intros H;
      injection H as <- <-; exists None, evs1;
      [exists ([EvGrab] ++ [EvYield (mjpeg_chunk data); EvSleep frame_delay])
      | exists [EvGrab]];
      rewrite ?app_assoc; repeat split; reflexivity.
Qed.

Lemma window_phase_capture st tk st1 fr evs1 id :
  window_phase darwin cg_ok title st tk = Ok (st1, fr, evs1) ->
  In (EvCapture id) evs1 ->
  captures evs1 = [id] /\
  (window_id st = None -> In (EvLookup (tk_now tk)) evs1 /\ tk_lookup tk = Some id) /\
  (window_id st = Some id \/ tk_lookup tk = Some id) /\
  (macos_capture_window_bgr cg_ok (tk_image tk) = Ok None -> window_id st1 = None) /\
  (forall f, macos_capture_window_bgr cg_ok (tk_image tk) = Ok (Some f) ->
             window_id st1 = Some id).
Proof.
  unfold window_phase; intros H I; revert H.
  destruct (truthy title && darwin); [|intros H; inversion H; subst; destruct I].
  destruct (window_id st) as [w|] eqn:Wst; simpl; rewrite ?Wst; simpl.
  - destruct (macos_capture_window_bgr cg_ok (tk_image tk)) as [[f|]|e] eqn:C;
      simpl; intros H; inversion H; subst; simpl in I;
      destruct I as [E|[]]; inversion E; subst;
      repeat split; simpl; intros; try discriminate; try congruence; auto.
  - destruct (Qle_bool LOOKUP_INTERVAL (tk_now tk - last_window_lookup st)); simpl.
    + destruct (tk_lookup tk) as [w|] eqn:L; simpl.
      * destruct (macos_capture_window_bgr cg_ok (tk_image tk)) as [[f|]|e] eqn:C;
          simpl; intros H; inversion H; subst; simpl in I;
          destruct I as [E|[E|[]]]; try discriminate; inversion E; subst;
          repeat split; simpl; intros; try discriminate; try congruence; auto.
      * intros H; inversion H; subst; simpl in I; destruct I as [E|[]]; discriminate.
    + rewrite Wst; intros H; inversion H; subst; destruct I.
Qed.

(** C2: an iteration captures through at most one handle; a handle it
    captures through is either the one already cached or the one its own
    lookup just returned (never a discarded one); a failed capture
    (null result) leaves no handle cached, a successful one keeps it. *)
Theorem stream_handle_single_use st tk st' evs id :
  stream_step darwin cg_ok imencode title st tk = Ok (st', evs) ->
  In (EvCapture id) evs ->
  captures evs = [id] /\
  (window_id st = None -> In (EvLookup (tk_now tk)) evs /\ tk_lookup tk = Some id) /\
  (window_id st = Some id \/ tk_lookup tk = Some id) /\
  (macos_capture_window_bgr cg_ok (tk_image tk) = Ok None -> window_id st' = None) /\
  (forall f, macos_capture_window_bgr cg_ok (tk_image tk) = Ok (Some f) ->
             window_id st' = Some id).
Proof.
  intros S I.
  destruct (stream_step_decomp _ _ _ _ S) as (fr & evs1 & extra & W & -> & Cx & _).
  assert (I1 : In (EvCapture id) evs1).
  { apply in_app_or in I as [I|I]; [exact I|].
    apply in_captures in I; rewrite Cx in I; destruct I. }
  destruct (window_phase_capture _ _ _ _ _ _ W I1) as (C1 & L & O & N & Sm).
  rewrite captures_app, C1, Cx.
  repeat split; auto.
  - apply in_or_app; left; now apply L.
  - now apply L.
Qed.
End StreamSteps.

Section StreamLookups.
Variable darwin : bool.
Variable cg_ok : bool.
Variable imencode : frame -> result (option (list Z)).
Variable title : option string.

Lemma window_phase_lookup st tk st1 fr evs1 :
  window_phase darwin cg_ok title st tk = Ok (st1, fr, evs1) ->
  (lookup_times evs1 = [] /\ last_window_lookup st1 = last_window_lookup st) \/
  (lookup_times evs1 = [tk_now tk] /\ last_window_lookup st1 = tk_now tk /\
   window_id st = None /\
   (LOOKUP_INTERVAL <= tk_now tk - last_window_lookup st)%Q).
Proof.
  unfold window_phase.
  destruct (truthy title && darwin); [|intros H; inversion H; subst; left; auto].
  destruct (window_id st) as [w|] eqn:Wst; simpl; rewrite ?Wst; simpl.
  - destruct (macos_capture_window_bgr cg_ok (tk_image tk)) as [[f|]|e];
      simpl; intros H; inversion H; subst; left; auto.
  - destruct (Qle_bool LOOKUP_INTERVAL (tk_now tk - last_window_lookup st)) eqn:Q;
      simpl.
    + apply Qle_bool_iff in Q.
      destruct (tk_lookup tk) as [w|]; simpl.
      * destruct (macos_capture_window_bgr cg_ok (tk_image tk)) as [[f|]|e];
          simpl; intros H; inversion H; subst; right; auto.
      * intros H; inversion H; subst; right; auto.
    + rewrite Wst; intros H; inversion H; subst; left; auto.
Qed.

Lemma stream_step_lookup st tk st' evs :
  stream_step darwin cg_ok imencode title st tk = Ok (st', evs) ->
  (lookup_times evs = [] /\ last_window_lookup st' = last_window_lookup st) \/
  (lookup_times evs = [tk_now tk] /\ last_window_lookup st' = tk_now tk /\
   window_id st = None /\
   (LOOKUP_INTERVAL <= tk_now tk - last_window_lookup st)%Q).
Proof.
  intros S.
  destruct (stream_step_decomp _ _ _ _ _ _ _ _ S) as (fr & evs1 & extra & W & -> & _ & Lx).
  rewrite lookup_times_app, Lx, app_nil_r.
  eapply window_phase_lookup; eexact W.
Qed.

Lemma stream_iters_lookups st tks :
  Forall (fun t => last_window_lookup st + LOOKUP_INTERVAL <= t)%Q
    (lookup_times (fst (stream_iters darwin cg_ok imencode title st tks))) /\
  ForallOrdPairs (fun t1 t2 => t1 + LOOKUP_INTERVAL <= t2)%Q
    (lookup_times (fst (stream_iters darwin cg_ok imencode title st tks))).
Proof.
  revert st; induction tks as [|tk tks IH]; intros st; simpl.
  - split; constructor.
  - destruct (stream_step darwin cg_ok imencode title st tk) as [[st' evs]|e] eqn:S;
      simpl; [|split; constructor].
    destruct (IH st') as [IHa IHb].
    destruct (stream_iters darwin cg_ok imencode title st' tks) as [evs' r]; simpl in *.
    rewrite lookup_times_app.
    destruct (stream_step_lookup _ _ _ _ S) as [[-> E]|[-> [E [_ Q]]]]; simpl.
    + rewrite E in IHa; split; assumption.
    + rewrite E in IHa.
      assert (LI : (0 <= LOOKUP_INTERVAL)%Q) by (unfold LOOKUP_INTERVAL, Qle; simpl; lia).
      split.
      * constructor; [lra|].
        eapply Forall_impl; [|exact IHa]; intros t Ht; simpl in Ht; lra.
      * constructor; assumption.
Qed.

Lemma drop_pending_sleep_shape l :
  l = drop_pending_sleep l \/ exists d, l = drop_pending_sleep l ++ [EvSleep d].
Proof.
  induction l as [|e l IH]; [left; reflexivity|].
  assert (R : (exists d, e = EvSleep d /\ l = []) \/
              drop_pending_sleep (e :: l) = e :: drop_pending_sleep l).
  { destruct e; try (right; reflexivity).
    destruct l; [left; eauto|right; reflexivity]. }
  destruct R as [(d & -> & ->)|R]; [right; exists d; reflexivity|].
  rewrite R; destruct IH as [E|(d' & E)].
  - left; rewrite <- E; reflexivity.
  - right; exists d'; rewrite E at 1; reflexivity.
Qed.

Lemma stream_run_iters st tks :
  snd (stream_run darwin cg_ok imencode title st tks)
    = snd (stream_iters darwin cg_ok imencode title st tks) /\
  (fst (stream_run darwin cg_ok imencode title st tks)
     = fst (stream_iters darwin cg_ok imencode title st tks) \/
   exists d, fst (stream_iters darwin cg_ok imencode title st tks)
               = fst (stream_run darwin cg_ok imencode title st tks) ++ [EvSleep d]).
Proof.
  unfold stream_run.
  destruct (stream_iters darwin cg_ok imencode title st tks) as [evs [e|]]; simpl;
    [split; [reflexivity|left; reflexivity]|].
  split; [reflexivity|].
  destruct (drop_pending_sleep_shape evs) as [E|E]; [left; exact (eq_sym E)|right; exact E].
Qed.

(** C3: a lookup happens only in an iteration that starts with no handle
    cached and at least [LOOKUP_INTERVAL] (0.8 s) after the previous lookup
    time, and it is stamped with that iteration's clock reading; hence in
    any run, each lookup's clock reading is at least 0.8 s after every
    earlier one. *)
Theorem stream_lookup_throttled :
  (forall st tk st' evs (t : Q),
      stream_step darwin cg_ok imencode title st tk = Ok (st', evs) ->
      In (EvLookup t) evs ->
      window_id st = None /\ t = tk_now tk /\
      (LOOKUP_INTERVAL <= t - last_window_lookup st)%Q) /\
  (forall st tks,
      ForallOrdPairs (fun t1 t2 => t1 + LOOKUP_INTERVAL <= t2)%Q
        (lookup_times (fst (stream_run darwin cg_ok imencode title st tks)))).
Proof.
  split.
  - intros st tk st' evs t S I.
    apply in_lookup_times in I.
    destruct (stream_step_lookup _ _ _ _ S) as [[E _]|[E [_ [W Q]]]];
      rewrite E in I; simpl in I; [destruct I|].
    destruct I as [<-|[]]; auto.
  - intros st tks.
    destruct (stream_iters_lookups st tks) as [_ H].
    destruct (stream_run_iters st tks) as [_ [E|(d & E)]].
    + rewrite <- E in H; exact H.
    + rewrite E, lookup_times_app, app_nil_r in H; exact H.
Qed.

(** C4 (as amended): an iteration either ends with the yield of a chunk
    followed by a sleep of exactly [frame_delay] (1/24 s), or yields and
    sleeps not at all; the duration is a constant, independent of the
    time the iteration took. *)
Theorem stream_sleep_constant st tk st' evs :
  stream_step darwin cg_ok imencode title st tk = Ok (st', evs) ->
  (exists pre c, evs = pre ++ [EvYield c; EvSleep frame_delay] /\
                 Forall not_output pre) \/
  Forall not_output evs.
Proof.
  unfold stream_step.
  destruct (acquire darwin cg_ok title st tk) as [[[st1 f] evs1]|e] eqn:A;
    simpl; [|discriminate].
  apply acquire_events in A.
  destruct (imencode f) as [[data|]|e]; simpl; [| |discriminate];
    intros H; injection H as <- <-.
  - left; exists evs1, (mjpeg_chunk data); split; [reflexivity|exact A].
  - right; exact A.
Qed.

(** C8: every chunk a stream yields is ["--" ^ boundary ^ CRLF ^
    "Content-Type: image/jpeg" ^ CRLF ^ CRLF] followed by the encoder's
    bytes and a CRLF, and both stream routes answer with the mimetype
    ["multipart/x-mixed-replace; boundary=" ^ boundary], for the same
    boundary token. *)
Theorem stream_chunks_multipart st tk st' evs c :
  stream_step darwin cg_ok imencode title st tk = Ok (st', evs) ->
  In (EvYield c) evs ->
  (exists f data,
      imencode f = Ok (Some data) /\
      c = bytes_of_string
            (String.append "--" (String.append BOUNDARY (String.append CRLF
              (String.append "Content-Type: image/jpeg" (String.append CRLF CRLF)))))
          ++ data ++ bytes_of_string CRLF) /\
  resp_mimetype stream_iphone
    = String.append "multipart/x-mixed-replace; boundary=" BOUNDARY /\
  resp_mimetype stream_ipad
    = String.append "multipart/x-mixed-replace; boundary=" BOUNDARY.
Proof.
  unfold stream_step.
  destruct (acquire darwin cg_ok title st tk) as [[[st1 f] evs1]|e] eqn:A;
    simpl; [|discriminate].
  apply acquire_events in A.
  intros H I; split; [|split; reflexivity].
  assert (NI : forall x, In x evs1 -> not_output x) by (apply Forall_forall; exact A).
  destruct (imencode f) as [[data|]|e] eqn:E; simpl in H; [| |discriminate];
    injection H as <- <-.
  - apply in_app_or in I as [I|[I|[I|[]]]].
    + destruct (NI _ I).
    + injection I as <-. exists f, data; split; [exact E|reflexivity].
    + discriminate.
  - destruct (NI _ I).
Qed.
End StreamLookups.

(* ------------------------------------------------------------------ *)
(** ** The reconciler *)

Lemma split_middle {A : Type} (pre post l1 l2 : list A) (x : A) :
  pre ++ x :: post = l1 ++ l2 ->
  (exists q, l1 = pre ++ x :: q /\ post = q ++ l2) \/
  (exists q, l2 = q ++ x :: post /\ pre = l1 ++ q).
Proof.
  revert pre; induction l1 as [|a l1 IH]; intros pre E; simpl in E.
  - right; exists pre; split; [now symmetry|reflexivity].
  - destruct pre as [|b pre]; simpl in E; injection E as -> E.
    + left; exists l1; split; [reflexivity|assumption].
    + destruct (IH _ E) as [(q & -> & ->)|(q & -> & ->)].
      * left; exists q; split; reflexivity.
      * right; exists q; split; reflexivity.
Qed.

Lemma once_nil title : once_positioned title [].
Proof. intros [|? ?] t post E; discriminate. Qed.

Lemma once_single title x : once_positioned title [x].
Proof.
  intros [|a [|b pre]] t post E; simpl in E; inversion E; subst; constructor.
Qed.

Lemma once_app title l1 l2 :
  once_positioned title l1 -> once_positioned title l2 ->
  (succeeded title l1 -> Forall (fun e => ~ moves_of title e) l2) ->
  once_positioned title (l1 ++ l2).
Proof.
  intros H1 H2 H12 pre t post E.
  destruct (split_middle _ _ _ _ _ (eq_sym E)) as [(q & E1 & ->)|(q & E2 & _)].
  - apply Forall_app; split; [exact (H1 _ _ _ E1)|].
    apply H12; exists t; rewrite E1; apply in_or_app; right; left; reflexivity.
  - exact (H2 _ _ _ E2).
Qed.

Lemma names_differ : IPHONE_NAME <> IPAD_NAME.
Proof. discriminate. Qed.

Lemma recon_no_moves env title fuel t k id ad :
  (title = IPHONE_NAME /\ id = true) \/ (title = IPAD_NAME /\ ad = true) ->
  Forall (fun e => ~ moves_of title e) (fst (recon_loop env fuel t k id ad)).
Proof.
  revert t k id ad; induction fuel as [|fuel IH]; intros t k id ad H; simpl;
    [constructor|].
  destruct (is_set env t); [constructor|].
  destruct H as [[-> ->]|[-> ->]]; simpl.
  - destruct ad; simpl; [constructor|].
    destruct (mv_ok (moves env k)); simpl.
    + repeat constructor. simpl; intros E; apply names_differ; congruence.
    + destruct (recon_loop env fuel _ _ true false) as [evs r] eqn:R; simpl.
      constructor; [simpl; intros E; apply names_differ; congruence|].
      constructor; [simpl; tauto|].
      change evs with (fst (evs, r)); rewrite <- R; apply IH; auto.
  - destruct id; simpl; [constructor|].
    destruct (mv_ok (moves env k)); simpl.
    + repeat constructor. simpl; intros E; apply names_differ; congruence.
    + destruct (recon_loop env fuel _ _ false true) as [evs r] eqn:R; simpl.
      constructor; [simpl; intros E; apply names_differ; congruence|].
      constructor; [simpl; tauto|].
      change evs with (fst (evs, r)); rewrite <- R; apply IH; auto.
Qed.

Lemma once_cons title x l :
  once_positioned title l ->
  (forall t, x = RMove title t true -> Forall (fun e => ~ moves_of title e) l) ->
  once_positioned title (x :: l).
Proof.
  intros H Hx. change (x :: l) with ([x] ++ l).
  apply once_app; [apply once_single|exact H|].
  intros [t [E|[]]]; now apply (Hx t).
Qed.

Lemma recon_once env title fuel t k id ad :
  title = IPHONE_NAME \/ title = IPAD_NAME ->
  once_positioned title (fst (recon_loop env fuel t k id ad)).
Proof.
  intros Ht. revert t k id ad; induction fuel as [|fuel IH]; intros t k id ad; simpl;
    [apply once_nil|].
  destruct (is_set env t); [apply once_nil|].
  destruct id, ad; simpl; [apply once_nil| | |];
  repeat match goal with
         | |- context [mv_ok (moves env ?j)] => destruct (mv_ok (moves env j))
         end; simpl;
  match goal with
  | |- context [recon_loop env fuel ?a ?b ?c ?d] =>
      pose proof (IH a b c d) as IHr;
      pose proof (fun h => recon_no_moves env title fuel a b c d h) as NM;
      destruct (recon_loop env fuel a b c d) as [evs r]; simpl in *
  | _ => idtac
  end;
  repeat (apply once_cons;
          [| let t' := fresh "t'" in let E := fresh "E" in
             intros t' E; try discriminate E; injection E as E1 E2; try subst;
             repeat constructor; simpl; try (intros E3; apply names_differ; congruence);
             try tauto; try (apply NM; auto)]);
  first [apply once_nil | exact IHr].
Qed.

Lemma inject_succ (n : nat) :
  inject_Z (Z.of_nat (S n)) == inject_Z (Z.of_nat n) + 1.
Proof. rewrite Nat2Z.inj_succ, <- Z.add_1_r, inject_Z_plus; reflexivity. Qed.

Lemma recon_loop_S env fuel t k iphone_done ipad_done :
  recon_loop env (S fuel) t k iphone_done ipad_done =
  if is_set env t then ([], Some t) else
  let '(ev1, t1, k1, iphone_done') := move_if_needed env IPHONE_NAME t k iphone_done in
  let '(ev2, t2, k2, ipad_done') := move_if_needed env IPAD_NAME t1 k1 ipad_done in
  if iphone_done' && ipad_done' then (ev1 ++ ev2, Some t2)
  else
    let '(evs, r) :=
      recon_loop env fuel (t2 + AUTO_POSITION_INTERVAL_SEC)%Q k2 iphone_done' ipad_done' in
    (ev1 ++ ev2 ++ [RSleep AUTO_POSITION_INTERVAL_SEC] ++ evs, r).
Proof. reflexivity. Qed.

Lemma cons_split {A : Type} (x e : A) l pre post :
  x :: l = pre ++ e :: post ->
  (pre = [] /\ e = x /\ post = l) \/ (exists pre', pre = x :: pre' /\ l = pre' ++ e :: post).
Proof.
  destruct pre as [|a pre]; simpl; intros E; injection E as E1 E2; subst.
  - left; auto.
  - right; eauto.
Qed.

Lemma nil_split {A : Type} (e : A) pre post : [] <> pre ++ e :: post.
Proof. destruct pre; discriminate. Qed.

Lemma succeeded_cons title x l :
  succeeded title (x :: l) -> (exists t, x = RMove title t true) \/ succeeded title l.
Proof.
  intros [t [E|I]]; [left; exists t; auto | right; exists t; auto].
Qed.

Lemma succeeded_nil title : ~ succeeded title [].
Proof. intros [t []]. Qed.

Lemma recon_stops_when_positioned env fuel t k id ad pre e post :
  fst (recon_loop env fuel t k id ad) = pre ++ e :: post ->
  ~ ((id = true \/ succeeded IPHONE_NAME pre) /\ (ad = true \/ succeeded IPAD_NAME pre)).
Proof.
  pose proof names_differ as ND.
  revert t k id ad pre; induction fuel as [|fuel IH]; intros t k id ad pre;
    [simpl; intros E; exfalso; exact (nil_split _ _ _ E)|].
  rewrite recon_loop_S.
  destruct (is_set env t); [simpl; intros E; exfalso; exact (nil_split _ _ _ E)|].
  unfold move_if_needed; destruct id, ad; cbn -[recon_loop];
    [intros E; exfalso; exact (nil_split _ _ _ E)| | |];
  repeat match goal with
         | |- context [mv_ok (moves env ?j)] => destruct (mv_ok (moves env j))
         end; cbn -[recon_loop];
  match goal with
  | |- context [recon_loop env fuel ?a ?b ?c ?d] =>
      pose proof (IH a b c d) as IHr;
      destruct (recon_loop env fuel a b c d) as [evs r]; simpl in *
  | _ => idtac
  end;
  intros E [HP HA];
  repeat match type of E with
         | _ :: _ = ?p ++ _ :: _ =>
             apply cons_split in E;
             let p' := fresh "pre" in
             destruct E as [(-> & _ & _)|(p' & -> & E)]
         | [] = _ ++ _ :: _ => exact (nil_split _ _ _ E)
         end;
  repeat match goal with
         | H : succeeded _ (_ :: _) |- _ =>
             apply succeeded_cons in H; destruct H as [[? H]|H]; [try congruence|]
         | H : succeeded _ [] |- _ => exact (succeeded_nil _ H)
         | H : false = true \/ _ |- _ => destruct H as [H|H]; [discriminate|]
         end;
  try congruence;
  try (apply (IHr _ E); split; auto; fail).
Qed.

Lemma move_count_app l1 l2 : move_count (l1 ++ l2) = (move_count l1 + move_count l2)%nat.
Proof. induction l1 as [|[] l1 IH]; simpl; lia. Qed.

Lemma succeeded_app title l1 l2 :
  succeeded title (l1 ++ l2) <-> succeeded title l1 \/ succeeded title l2.
Proof.
  unfold succeeded; split.
  - intros [t I]; apply in_app_or in I as [I|I]; [left|right]; eauto.
  - intros [[t I]|[t I]]; exists t; apply in_or_app; auto.
Qed.

Lemma recon_round env fuel t k id ad :
  is_set env t = false ->
  exists ev t2 k2 id' ad',
    recon_loop env (S fuel) t k id ad =
      (if id' && ad' then (ev, Some t2)
       else let '(evs, r) :=
              recon_loop env fuel (t2 + AUTO_POSITION_INTERVAL_SEC)%Q k2 id' ad' in
            (ev ++ [RSleep AUTO_POSITION_INTERVAL_SEC] ++ evs, r)) /\
    k2 = (k + move_count ev)%nat /\
    (t2 == t + sum_durs env k (List.length ev))%Q /\
    Forall is_move ev /\ (List.length ev <= 2)%nat /\
    (ev = [] -> id = true /\ ad = true) /\
    (forall title s ok, hd_error ev = Some (RMove title s ok) -> s = t) /\
    (id' = true <-> id = true \/ succeeded IPHONE_NAME ev) /\
    (ad' = true <-> ad = true \/ succeeded IPAD_NAME ev) /\
    (id' && ad' = true -> ev <> [] ->
     exists pre title s, ev = pre ++ [RMove title s true] /\
       t2 = (s + mv_dur (moves env (k + move_count pre)))%Q).
Proof.
  intros Hs. rewrite recon_loop_S, Hs.
  destruct (move_if_needed env IPHONE_NAME t k id) as [[[ev1 t1] k1] id'] eqn:R1.
  destruct (move_if_needed env IPAD_NAME t1 k1 ad) as [[[ev2 t2] k2] ad'] eqn:R2.
  exists (ev1 ++ ev2), t2, k2, id', ad'.
  split.
  { destruct (id' && ad'); [reflexivity|].
    destruct (recon_loop env fuel (t2 + AUTO_POSITION_INTERVAL_SEC)%Q k2 id' ad').
    rewrite <- app_assoc; reflexivity. }
  pose proof names_differ as ND.
  unfold move_if_needed in R1, R2.
  destruct id, ad;
    [ injection R1 as <- <- <- <-; injection R2 as <- <- <- <-
    | injection R1 as <- <- <- <-; destruct (mv_ok (moves env k)) eqn:O2;
      injection R2 as <- <- <- <-
    | destruct (mv_ok (moves env k)) eqn:O1; injection R1 as <- <- <- <-;
      injection R2 as <- <- <- <-
    | destruct (mv_ok (moves env k)) eqn:O1; injection R1 as <- <- <- <-;
      destruct (mv_ok (moves env (S k))) eqn:O2; injection R2 as <- <- <- <- ];
    simpl app; cbn [List.length move_count sum_durs hd_error];
    repeat split;
    try (intros; discriminate);
    try lia; try lra;
    try (unfold succeeded; simpl; intros; eauto; fail);
    try (intros [H|(? & H)]; [discriminate|simpl in H; intuition congruence]);
    try (intros ? ? ? H; injection H as ? <- ?; reflexivity);
    try (repeat constructor; fail).
  - intros _ H; exfalso; apply H; reflexivity.
  - intros _ _; exists [], IPAD_NAME, t; split; [reflexivity|].
    simpl; rewrite Nat.add_0_r; reflexivity.
  - intros _ _; exists [], IPHONE_NAME, t; split; [reflexivity|].
    simpl; rewrite Nat.add_0_r; reflexivity.
  - intros _ _; exists [RMove IPHONE_NAME t true], IPAD_NAME, (t + mv_dur (moves env k))%Q.
    split; [reflexivity|]. simpl; rewrite Nat.add_1_r; reflexivity.
Qed.

Lemma recon_positioned env fuel t k id ad :
  id && ad = false ->
  (id = true \/ succeeded IPHONE_NAME (fst (recon_loop env fuel t k id ad))) ->
  (ad = true \/ succeeded IPAD_NAME (fst (recon_loop env fuel t k id ad))) ->
  exists pre title s,
    fst (recon_loop env fuel t k id ad) = pre ++ [RMove title s true] /\
    snd (recon_loop env fuel t k id ad) = Some (s + mv_dur (moves env (k + move_count pre)))%Q.
Proof.
  revert t k id ad; induction fuel as [|fuel IH]; intros t k id ad D HI HA.
  - simpl in HI, HA.
    destruct id, ad; simpl in D; try discriminate;
      [destruct HA as [HA|HA]|destruct HI as [HI|HI]|destruct HI as [HI|HI]];
      try discriminate; exfalso; eapply succeeded_nil; eassumption.
  - destruct (is_set env t) eqn:Hs.
    + rewrite recon_loop_S, Hs in HI, HA; simpl in HI, HA.
      destruct id, ad; simpl in D; try discriminate;
        [destruct HA as [HA|HA]|destruct HI as [HI|HI]|destruct HI as [HI|HI]];
        try discriminate; exfalso; eapply succeeded_nil; eassumption.
    + destruct (recon_round env fuel t k id ad Hs)
        as (ev & t2 & k2 & id' & ad' & E & Ek & Et & Fm & Lm & Ne & Hd & Ii & Ia & Last).
      rewrite E in *.
      destruct (id' && ad') eqn:B; simpl in *.
      * destruct (Last eq_refl) as (pre & ti & s & Ev & T2).
        { intros ->; destruct (Ne eq_refl) as [-> ->]; discriminate D. }
        exists pre, ti, s; split; [exact Ev|rewrite T2; reflexivity].
      * destruct (recon_loop env fuel (t2 + AUTO_POSITION_INTERVAL_SEC)%Q k2 id' ad')
          as [evs r] eqn:Rr; simpl in *.
        assert (HI' : id' = true \/ succeeded IPHONE_NAME evs).
        { destruct HI as [HI|HI]; [left; apply Ii; left; exact HI|].
          apply succeeded_app in HI as [HI|HI]; [left; apply Ii; right; exact HI|].
          apply succeeded_cons in HI as [(? & HI)|HI]; [discriminate|right; exact HI]. }
        assert (HA' : ad' = true \/ succeeded IPAD_NAME evs).
        { destruct HA as [HA|HA]; [left; apply Ia; left; exact HA|].
          apply succeeded_app in HA as [HA|HA]; [left; apply Ia; right; exact HA|].
          apply succeeded_cons in HA as [(? & HA)|HA]; [discriminate|right; exact HA]. }
        specialize (IH (t2 + AUTO_POSITION_INTERVAL_SEC)%Q k2 id' ad' B).
        rewrite Rr in IH; simpl in IH.
        destruct (IH HI' HA') as (pre' & ti & s & Evs & Rs).
        exists (ev ++ [RSleep AUTO_POSITION_INTERVAL_SEC] ++ pre'), ti, s; split.
        -- rewrite Evs, <- !app_assoc; reflexivity.
        -- rewrite Rs, !move_count_app, Ek; simpl.
           replace (k + (move_count ev + move_count pre'))%nat
             with (k + move_count ev + move_count pre')%nat by lia.
           reflexivity.
Qed.

Lemma sum_durs_nonneg env k m :
  (forall j, 0 <= mv_dur (moves env j))%Q -> (0 <= sum_durs env k m)%Q.
Proof.
  intros H; revert k; induction m as [|m IH]; intros k; simpl; [lra|].
  specialize (H k); specialize (IH (S k)); lra.
Qed.

Lemma is_set_false env ts t :
  stop_at env = Some ts -> is_set env t = false -> (t < ts)%Q.
Proof.
  unfold is_set; intros -> H.
  apply Qnot_le_lt; intros L; apply Qle_bool_iff in L; congruence.
Qed.

Lemma recon_stop_bound env ts fuel t k id ad te :
  stop_at env = Some ts ->
  snd (recon_loop env fuel t k id ad) = Some te ->
  (fst (recon_loop env fuel t k id ad) = [] /\ te == t)%Q \/ (te <= ts)%Q \/
  exists pre ms tail title s ok,
    fst (recon_loop env fuel t k id ad) = pre ++ ms ++ tail /\ round_boundary pre /\
    ms <> [] /\ (List.length ms <= 2)%nat /\ Forall is_move ms /\
    hd_error ms = Some (RMove title s ok) /\ (s < ts)%Q /\
    (tail = [] \/ tail = [RSleep AUTO_POSITION_INTERVAL_SEC]) /\
    (te <= ts + AUTO_POSITION_INTERVAL_SEC
            + sum_durs env (k + move_count pre) (List.length ms))%Q.
Proof.
  intros Hts; revert t k id ad; induction fuel as [|fuel IH]; intros t k id ad R;
    [discriminate R|].
  destruct (is_set env t) eqn:Hs.
  - rewrite recon_loop_S, Hs in *; simpl in R; injection R as <-.
    left; split; reflexivity.
  - pose proof (is_set_false env ts t Hts Hs) as Lt.
    destruct (recon_round env fuel t k id ad Hs)
      as (ev & t2 & k2 & id' & ad' & E & Ek & Et & Fm & Lm & Ne & Hd & Ii & Ia & Last).
    rewrite E in *.
    unfold AUTO_POSITION_INTERVAL_SEC in *.
    assert (Head : ev <> [] -> exists ti ok, hd_error ev = Some (RMove ti t ok)).
    { destruct ev as [|[ti s ok|d] ev0]; [congruence| |inversion Fm; contradiction].
      intros _; exists ti, ok; simpl in Hd |- *; rewrite (Hd ti s ok eq_refl); reflexivity. }
    destruct (id' && ad') eqn:B; simpl in R |- *.
    + injection R as <-.
      destruct ev as [|e0 ev0].
      * left; split; [reflexivity|]. simpl in Et; lra.
      * destruct (Head ltac:(discriminate)) as (ti & ok & Hh).
        right; right; exists [], (e0 :: ev0), [], ti, t, ok.
        rewrite app_nil_r; simpl move_count; rewrite Nat.add_0_r.
        repeat split; auto; [left; reflexivity|discriminate|lra].
    + destruct (recon_loop env fuel (t2 + 2)%Q k2 id' ad') as [evs r] eqn:Rr; simpl in R.
      subst r.
      specialize (IH (t2 + 2)%Q k2 id' ad'); rewrite Rr in IH; simpl in IH.
      destruct ev as [|e0 ev0] eqn:Eev.
      { destruct (Ne eq_refl) as [-> ->].
        assert (id' = true) by (apply Ii; auto).
        assert (ad' = true) by (apply Ia; auto).
        subst; discriminate B. }
      rewrite <- Eev in *.
      destruct (Head ltac:(subst; discriminate)) as (ti & ok & Hh).
      destruct (IH eq_refl) as [[-> Te]|[Te|(pre' & ms & tail & ti' & s' & ok' & Ev &
                                              Rb & Nm & Lms & Fms & Hms & Ls & Tl & Bd)]].
      * right; right; exists [], ev, [RSleep 2%Q], ti, t, ok.
        simpl move_count; rewrite Nat.add_0_r.
        repeat split; auto; [left; reflexivity|subst; discriminate|lra].
      * right; left; exact Te.
      * right; right.
        exists (ev ++ [RSleep 2%Q] ++ pre'), ms, tail, ti', s', ok'.
        repeat split; auto.
        -- rewrite Ev, <- !app_assoc; reflexivity.
        -- destruct Rb as [->|(p & d & ->)]; right.
           ++ exists ev, 2%Q; reflexivity.
           ++ exists (ev ++ [RSleep 2%Q] ++ p), d; rewrite <- !app_assoc; reflexivity.
        -- rewrite !move_count_app; simpl; rewrite Ek in Bd.
           replace (k + (move_count ev + move_count pre'))%nat
             with (k + move_count ev + move_count pre')%nat by lia.
           exact Bd.
Qed.

Lemma recon_returns env ts :
  stop_at env = Some ts -> (forall j, 0 <= mv_dur (moves env j))%Q ->
  forall n t k id ad,
    (ts <= t + AUTO_POSITION_INTERVAL_SEC * inject_Z (Z.of_nat n))%Q ->
    exists te, snd (recon_loop env (S n) t k id ad) = Some te.
Proof.
  intros Hts HD n; induction n as [|n IH]; intros t k id ad Hn.
  - rewrite recon_loop_S.
    assert (L : (ts <= t)%Q).
    { change (inject_Z (Z.of_nat 0)) with 0%Q in Hn;
      unfold AUTO_POSITION_INTERVAL_SEC in Hn; lra. }
    unfold is_set; rewrite Hts; apply Qle_bool_iff in L; rewrite L.
    exists t; reflexivity.
  - destruct (is_set env t) eqn:Hs; [rewrite recon_loop_S, Hs; exists t; reflexivity|].
    destruct (recon_round env (S n) t k id ad Hs)
      as (ev & t2 & k2 & id' & ad' & E & Ek & Et & _).
    rewrite E.
    destruct (id' && ad'); [exists t2; reflexivity|].
    pose proof (sum_durs_nonneg env k (List.length ev) HD) as P.
    pose proof (inject_succ n) as Sn.
    destruct (IH (t2 + AUTO_POSITION_INTERVAL_SEC)%Q k2 id' ad') as (te & Te).
    { unfold AUTO_POSITION_INTERVAL_SEC in *; lra. }
    destruct (recon_loop env (S n) (t2 + AUTO_POSITION_INTERVAL_SEC)%Q k2 id' ad');
      simpl in *; exists te; exact Te.
Qed.

(* ------------------------------------------------------------------ *)
(** ** The window locator *)

Section LocatorProofs.
Variable py_lower : pystr -> pystr.

Lemma containsb_empty s : containsb [] s = true.
Proof. destruct s; reflexivity. Qed.

Lemma skip_test needle name :
  nonempty needle && negb (containsb needle name) = negb (containsb needle name).
Proof.
  destruct needle as [|c r]; simpl; [now rewrite containsb_empty|reflexivity].
Qed.

Lemma scan_windows_some needle infos n :
  scan_windows py_lower needle infos = Some n <->
  exists pre e post, infos = pre ++ e :: post /\ usable_window py_lower needle e n /\
    Forall (fun e' => forall m, ~ usable_window py_lower needle e' m) pre.
Proof.
  induction infos as [|e infos IH]; simpl.
  - split; [discriminate|]. intros (pre & e & post & E & _); destruct pre; discriminate.
  - assert (Hcons : forall pre e0 post,
             e :: infos = pre ++ e0 :: post ->
             (pre = [] /\ e0 = e /\ post = infos) \/
             (exists pre', pre = e :: pre' /\ infos = pre' ++ e0 :: post)).
    { intros [|a pre] e0 post E; simpl in E; injection E as E1 E2; subst; [left|right]; eauto. }
    destruct e as [info|].
    2:{ rewrite IH; split.
        - intros (pre & e & post & E & U & F).
          exists (None :: pre), e, post; split; [simpl; congruence|split; [exact U|]].
          constructor; [intros m (i & Ei & _); discriminate|exact F].
        - intros (pre & e & post & E & U & F).
          destruct (Hcons _ _ _ E) as [(-> & -> & ->)|(pre' & -> & E')].
          + destruct U as (i & Ei & _); discriminate.
          + inversion F; subst; exists pre', e, post; auto. }
    rewrite skip_test.
    destruct (containsb needle (py_lower (cfstring_to_str (wi_name info)))) eqn:C; simpl.
    + destruct (wi_number info) as [[m|]|] eqn:N.
      2,3: rewrite IH; split;
          [ intros (pre & e & post & E & U & F);
            exists (Some info :: pre), e, post; split; [simpl; congruence|split; [exact U|]];
            constructor; [intros m' (i & Ei & _ & Ni); injection Ei as <-; congruence|exact F]
          | intros (pre & e & post & E & U & F);
            destruct (Hcons _ _ _ E) as [(-> & -> & ->)|(pre' & -> & E')];
            [ destruct U as (i & Ei & _ & Ni); injection Ei as <-; congruence
            | inversion F; subst; exists pre', e, post; auto ] ].
      split.
      * intros Em; injection Em as <-; exists [], (Some info), infos.
        split; [reflexivity|split; [exists info; auto|constructor]].
      * intros (pre & e & post & E & U & F).
        destruct (Hcons _ _ _ E) as [(-> & -> & ->)|(pre' & -> & E')].
        -- destruct U as (i & Ei & _ & Ni); injection Ei as <-; congruence.
        -- inversion F as [|? ? Fh _]; subst.
           exfalso; apply (Fh m); exists info; auto.
    + rewrite IH; split.
      * intros (pre & e & post & E & U & F).
        exists (Some info :: pre), e, post; split; [simpl; congruence|split; [exact U|]].
        constructor; [intros m' (i & Ei & Ci & _); injection Ei as <-; congruence|exact F].
      * intros (pre & e & post & E & U & F).
        destruct (Hcons _ _ _ E) as [(-> & -> & ->)|(pre' & -> & E')].
        -- destruct U as (i & Ei & Ci & _); injection Ei as <-; congruence.
        -- inversion F; subst; exists pre', e, post; auto.
Qed.

Lemma scan_windows_none needle infos :
  scan_windows py_lower needle infos = None <->
  Forall (fun e => forall m, ~ usable_window py_lower needle e m) infos.
Proof.
  induction infos as [|e infos IH]; simpl.
  - split; auto.
  - destruct e as [info|].
    + rewrite skip_test.
      destruct (containsb needle (py_lower (cfstring_to_str (wi_name info)))) eqn:C; simpl.
      * destruct (wi_number info) as [[m|]|] eqn:N.
        2,3: rewrite IH; split;
             [ intros F; constructor; [intros m' (i & Ei & _ & Ni); injection Ei as <-; congruence|exact F]
             | intros F; inversion F; auto ].
        split; [discriminate|].
        intros F; inversion F as [|? ? Fh _]; subst.
        exfalso; apply (Fh m); exists info; auto.
      * rewrite IH; split.
        -- intros F; constructor; [intros m' (i & Ei & Ci & _); injection Ei as <-; congruence|exact F].
        -- intros F; inversion F; auto.
    + rewrite IH; split.
      * intros F; constructor; [intros m (i & Ei & _); discriminate|exact F].
      * intros F; inversion F; auto.
Qed.

(** On a registry of well-formed entries, the usable entries are the
    ones whose title contains the needle. *)
Lemma usable_entry_ok needle e n :
  registry_entry_ok e ->
  usable_window py_lower needle e n <->
  exists info, e = Some info /\
    containsb needle (py_lower (cfstring_to_str (wi_name info))) = true /\
    wi_number info = Some (Some n).
Proof. intros _; reflexivity. Qed.

Lemma unusable_entry_ok needle e :
  registry_entry_ok e ->
  (forall m, ~ usable_window py_lower needle e m) <->
  (forall info, e = Some info ->
     containsb needle (py_lower (cfstring_to_str (wi_name info))) = false).
Proof.
  intros (info & n & -> & N); split.
  - intros H i E; injection E as <-.
    destruct (containsb needle (py_lower (cfstring_to_str (wi_name info)))) eqn:C;
      [|reflexivity].
    exfalso; apply (H n); exists info; auto.
  - intros H m (i & E & C & _); injection E as <-.
    rewrite (H info eq_refl) in C; discriminate.
Qed.
End LocatorProofs.

(* ------------------------------------------------------------------ *)
(** ** Claims about the window locator and the reconciler *)

(** C7: for any lowercase mapping [py_lower] (Python's [str.lower]),
    [macos_find_window_id] returns [Some n] exactly when the libraries
    loaded, the registry query returned an array, and [n] is the number of
    the first entry that is not null, whose title contains the substring
    case-insensitively and whose window number is present and readable; it
    returns [None] exactly when the libraries are unavailable, the query
    returned null, or no entry qualifies; it never raises.  On a registry as
    CoreGraphics returns it (no null entry, every entry with its required
    window number), it returns the number of the first window whose title
    contains the substring, and [None] exactly when no title does. *)
Theorem find_window_first_usable py_lower cg_ok registry title_substring :
  (forall n,
      macos_find_window_id py_lower cg_ok registry title_substring = Some n <->
      cg_ok = true /\
      exists infos pre e post,
        registry = Some infos /\ infos = pre ++ e :: post /\
        usable_window py_lower (py_lower title_substring) e n /\
        Forall (fun e' => forall m, ~ usable_window py_lower (py_lower title_substring) e' m)
          pre) /\
  (macos_find_window_id py_lower cg_ok registry title_substring = None <->
   cg_ok = false \/ registry = None \/
   exists infos, registry = Some infos /\
     Forall (fun e => forall m, ~ usable_window py_lower (py_lower title_substring) e m)
       infos) /\
  (forall infos, cg_ok = true -> registry = Some infos -> Forall registry_entry_ok infos ->
   (forall n,
      macos_find_window_id py_lower cg_ok registry title_substring = Some n <->
      exists pre info post, infos = pre ++ Some info :: post /\
        containsb (py_lower title_substring)
          (py_lower (cfstring_to_str (wi_name info))) = true /\
        wi_number info = Some (Some n) /\
        Forall (fun e => forall i, e = Some i ->
                  containsb (py_lower title_substring)
                    (py_lower (cfstring_to_str (wi_name i))) = false) pre) /\
   (macos_find_window_id py_lower cg_ok registry title_substring = None <->
      Forall (fun e => forall i, e = Some i ->
                containsb (py_lower title_substring)
                  (py_lower (cfstring_to_str (wi_name i))) = false) infos)).
Proof.
  assert (Some_iff : forall n,
      macos_find_window_id py_lower cg_ok registry title_substring = Some n <->
      cg_ok = true /\
      exists infos pre e post,
        registry = Some infos /\ infos = pre ++ e :: post /\
        usable_window py_lower (py_lower title_substring) e n /\
        Forall (fun e' => forall m, ~ usable_window py_lower (py_lower title_substring) e' m)
          pre).
  { unfold macos_find_window_id; intros n; destruct cg_ok; simpl.
    + destruct registry as [infos|].
      * rewrite scan_windows_some; split.
        -- intros (pre & e & post & H); split; [reflexivity|]; exists infos, pre, e, post; auto.
        -- intros [_ (infos' & pre & e & post & E & H)]; injection E as <-; eauto.
      * split; [discriminate|]. intros [_ (infos' & pre & e & post & E & _)]; discriminate.
    + split; [discriminate|]. intros [E _]; discriminate. }
  assert (None_iff :
      macos_find_window_id py_lower cg_ok registry title_substring = None <->
      cg_ok = false \/ registry = None \/
      exists infos, registry = Some infos /\
        Forall (fun e => forall m, ~ usable_window py_lower (py_lower title_substring) e m)
          infos).
  { unfold macos_find_window_id; destruct cg_ok; simpl.
    + destruct registry as [infos|].
      * rewrite scan_windows_none; split.
        -- intros F; right; right; exists infos; auto.
        -- intros [E|[E|(infos' & E & F)]]; try discriminate; injection E as <-; exact F.
      * split; auto.
    + split; auto. }
  split; [exact Some_iff|split; [exact None_iff|]].
  intros infos -> -> Ok.
  assert (Un : forall l, Forall registry_entry_ok l ->
     Forall (fun e => forall m, ~ usable_window py_lower (py_lower title_substring) e m) l <->
     Forall (fun e => forall i, e = Some i ->
               containsb (py_lower title_substring)
                 (py_lower (cfstring_to_str (wi_name i))) = false) l).
  { intros l Fl; rewrite Forall_forall in Fl; rewrite !Forall_forall; split.
    - intros H e I; apply (unusable_entry_ok py_lower); [apply Fl; exact I|apply H; exact I].
    - intros H e I; apply (unusable_entry_ok py_lower); [apply Fl; exact I|apply H; exact I]. }
  split.
  - intros n; rewrite Some_iff; split.
    + intros [_ (infos' & pre & e & post & E & -> & (info & -> & C & N) & F)].
      injection E as ->.
      exists pre, info, post; split; [reflexivity|split; [exact C|split; [exact N|]]].
      apply Un; [|exact F].
      apply Forall_app in Ok as [Ok _]; exact Ok.
    + intros (pre & info & post & -> & C & N & F).
      split; [reflexivity|].
      exists (pre ++ Some info :: post), pre, (Some info), post.
      split; [reflexivity|split; [reflexivity|split; [exists info; auto|]]].
      apply Un; [|exact F].
      apply Forall_app in Ok as [Ok _]; exact Ok.
  - rewrite None_iff; split.
    + intros [E|[E|(infos' & E & F)]]; try discriminate.
      injection E as <-; apply Un; assumption.
    + intros F; right; right; exists infos; split; [reflexivity|].
      apply Un; assumption.
Qed.

(** C6: once a [set_window_bounds] call for either source has succeeded, the
    reconciler issues no further call for that source in the rest of its run. *)
Theorem reconciler_no_move_after_success darwin auto env fuel t0 title pre t post :
  title = IPHONE_NAME \/ title = IPAD_NAME ->
  fst (keep_uxplay_windows_positioned darwin auto env fuel t0)
    = pre ++ RMove title t true :: post ->
  Forall (fun e => ~ moves_of title e) post.
Proof.
  intros Ht; unfold keep_uxplay_windows_positioned.
  destruct darwin, auto; simpl;
    try (intros E; exfalso; exact (nil_split _ _ _ E)).
  apply (recon_once env title fuel t0 0 false false Ht).
Qed.

(** C9 (as amended): off macOS or with auto-positioning disabled the
    reconciler returns at once without any move.  Otherwise no event follows
    the point where both sources have been positioned, and a run in which
    both got positioned ends with the call that positioned the second one
    and returns when that call returns.  If the stop signal is set at [ts],
    the loop returns immediately (at its start), or by [ts], or during the
    round in progress at [ts]: the last round of the trace, of one or two
    calls the first of which started before [ts], and the return comes at
    most one poll interval plus those calls' durations after [ts].  With
    enough iterations to reach [ts] and calls of non-negative duration, it
    does return. *)
Theorem reconciler_terminates darwin auto env fuel t0 :
  (darwin = false \/ auto = false ->
   keep_uxplay_windows_positioned darwin auto env fuel t0 = ([], Some t0)) /\
  (forall pre e post,
      fst (keep_uxplay_windows_positioned darwin auto env fuel t0) = pre ++ e :: post ->
      ~ (succeeded IPHONE_NAME pre /\ succeeded IPAD_NAME pre)) /\
  (succeeded IPHONE_NAME (fst (keep_uxplay_windows_positioned darwin auto env fuel t0)) ->
   succeeded IPAD_NAME (fst (keep_uxplay_windows_positioned darwin auto env fuel t0)) ->
   exists pre title s,
     fst (keep_uxplay_windows_positioned darwin auto env fuel t0)
       = pre ++ [RMove title s true] /\
     snd (keep_uxplay_windows_positioned darwin auto env fuel t0)
       = Some (s + mv_dur (moves env (move_count pre)))%Q) /\
  (forall ts te,
      stop_at env = Some ts ->
      snd (keep_uxplay_windows_positioned darwin auto env fuel t0) = Some te ->
      (fst (keep_uxplay_windows_positioned darwin auto env fuel t0) = [] /\ te == t0)%Q \/
      (te <= ts)%Q \/
      exists pre ms tail title s ok,
        fst (keep_uxplay_windows_positioned darwin auto env fuel t0) = pre ++ ms ++ tail /\
        round_boundary pre /\ ms <> [] /\ (List.length ms <= 2)%nat /\
        Forall is_move ms /\ hd_error ms = Some (RMove title s ok) /\ (s < ts)%Q /\
        (tail = [] \/ tail = [RSleep AUTO_POSITION_INTERVAL_SEC]) /\
        (te <= ts + AUTO_POSITION_INTERVAL_SEC
                + sum_durs env (move_count pre) (List.length ms))%Q) /\
  (forall ts n,
      fuel = S n ->
      stop_at env = Some ts ->
      (forall j, 0 <= mv_dur (moves env j))%Q ->
      (ts <= t0 + AUTO_POSITION_INTERVAL_SEC * inject_Z (Z.of_nat n))%Q ->
      exists te, snd (keep_uxplay_windows_positioned darwin auto env fuel t0) = Some te).
Proof.
  unfold keep_uxplay_windows_positioned; split; [|split; [|split; [|split]]].
  - intros [->| ->]; [reflexivity|destruct darwin; reflexivity].
  - intros pre e post.
    destruct darwin, auto; simpl; try (intros E; exfalso; exact (nil_split _ _ _ E)).
    intros E [HP HA].
    apply (recon_stops_when_positioned env fuel t0 0 false false pre e post E); auto.
  - destruct darwin, auto; simpl; try (intros HP; exfalso; exact (succeeded_nil _ HP)).
    intros HP HA.
    apply (recon_positioned env fuel t0 0 false false eq_refl); auto.
  - intros ts te Hs.
    destruct darwin, auto; simpl;
      try (intros E; injection E as <-; left; split; reflexivity).
    intros R; exact (recon_stop_bound env ts fuel t0 0 false false te Hs R).
  - intros ts n -> Hs HD Hn.
    destruct darwin, auto; simpl; try (exists t0; reflexivity).
    exact (recon_returns env ts Hs HD n t0 0 false false Hn).
Qed.

(** C9 (counterexample): with the stop signal set at 0.01 s, just after the
    first loop test, and every osascript call failing after one second, the
    loop returns at 4 s: more than one poll interval after the signal. *)
Theorem reconciler_exit_exceeds_poll_interval :
  snd (keep_uxplay_windows_positioned true AUTO_POSITION_WINDOWS
         (env_failing (Some (1 # 100))) 5 0%Q) = Some 4%Q /\
  ~ (4 <= (1 # 100) + AUTO_POSITION_INTERVAL_SEC)%Q.
Proof.
  split; [reflexivity|].
  unfold AUTO_POSITION_INTERVAL_SEC; lra.
Qed.


(** C4 (counterexample): an iteration whose capture and encode took 10 ms
    still sleeps the full [frame_delay], not [max(0, frame_delay - 0.01)]. *)
Theorem stream_sleep_not_reduced :
  ~ (forall st tk st' evs d,
        stream_step true true encode_model (Some IPHONE_NAME) st tk = Ok (st', evs) ->
        In (EvSleep d) evs ->
        d == Qmax 0 (frame_delay - tk_elapsed tk)).
Proof.
  intros H.
  destruct (stream_step true true encode_model (Some IPHONE_NAME) stream_init
              (tick_with (Some good_image))) as [[st' evs]|e] eqn:E;
    [|vm_compute in E; discriminate E].
  assert (I : In (EvSleep frame_delay) evs).
  { vm_compute in E; injection E as _ <-; simpl; tauto. }
  pose proof (H _ _ _ _ _ E I) as Q.
  vm_compute in Q; discriminate Q.
Qed.

(* ------------------------------------------------------------------ *)
(** ** Witnesses: the theorems applied at concrete inputs *)

Lemma stream_handle_single_use_witness :
  match stream_step true true encode_model (Some IPHONE_NAME) stream_init
          (tick_with (Some good_image)) with
  | Ok (st', evs) => captures evs = [7] /\ window_id st' = Some 7
  | Raise _ => False
  end.
Proof.
  destruct (stream_step true true encode_model (Some IPHONE_NAME) stream_init
              (tick_with (Some good_image))) as [[st' evs]|e] eqn:E;
    [|vm_compute in E; discriminate E].
  assert (I : In (EvCapture 7) evs).
  { vm_compute in E; injection E as _ <-; simpl; tauto. }
  destruct (stream_handle_single_use true true encode_model (Some IPHONE_NAME)
              stream_init (tick_with (Some good_image)) st' evs 7 E I)
    as (C & _ & _ & _ & Sm).
  split; [exact C|].
  apply (Sm [[(10, 20, 30)]]); reflexivity.
Defined.

Lemma stream_lookup_throttled_witness :
  match stream_step true true encode_model (Some IPHONE_NAME) stream_init
          (tick_with (Some good_image)) with
  | Ok (st', evs) =>
      window_id stream_init = None /\
      (LOOKUP_INTERVAL <= 1 - last_window_lookup stream_init)%Q
  | Raise _ => False
  end.
Proof.
  destruct (stream_step true true encode_model (Some IPHONE_NAME) stream_init
              (tick_with (Some good_image))) as [[st' evs]|e] eqn:E;
    [|vm_compute in E; discriminate E].
  assert (I : In (EvLookup 1%Q) evs).
  { vm_compute in E; injection E as _ <-; simpl; tauto. }
  destruct (proj1 (stream_lookup_throttled true true encode_model (Some IPHONE_NAME))
              stream_init (tick_with (Some good_image)) st' evs 1%Q E I)
    as (W & _ & Q).
  split; assumption.
Defined.

Lemma stream_sleep_constant_witness :
  match stream_step true true encode_model (Some IPHONE_NAME) stream_init
          (tick_with (Some good_image)) with
  | Ok (st', evs) =>
      (exists pre c, evs = pre ++ [EvYield c; EvSleep frame_delay] /\
                     Forall not_output pre) \/ Forall not_output evs
  | Raise _ => False
  end.
Proof.
  destruct (stream_step true true encode_model (Some IPHONE_NAME) stream_init
              (tick_with (Some good_image))) as [[st' evs]|e] eqn:E;
    [|vm_compute in E; discriminate E].
  exact (stream_sleep_constant true true encode_model (Some IPHONE_NAME)
           stream_init (tick_with (Some good_image)) st' evs E).
Defined.


Lemma reconciler_no_move_after_success_witness :
  Forall (fun e => ~ moves_of IPHONE_NAME e) [RMove IPAD_NAME (0 + 0)%Q true].
Proof.
  apply (reconciler_no_move_after_success true true env_succeeding 1 0%Q
           IPHONE_NAME [] 0%Q [RMove IPAD_NAME (0 + 0)%Q true]).
  - left; reflexivity.
  - reflexivity.
Defined.

Lemma find_window_first_usable_witness :
  macos_find_window_id py_lower_ascii true registry_sample (codepoints "reflector-IPHONE")
    = Some 42.
Proof.
  destruct (find_window_first_usable py_lower_ascii true registry_sample
              (codepoints "reflector-IPHONE")) as (_ & _ & H).
  destruct (H _ eq_refl eq_refl) as [Hs _].
  - repeat constructor; do 2 eexists; split; reflexivity.
  - apply Hs.
    exists [Some {| wi_name := None; wi_number := Some (Some 3) |};
            Some {| wi_name := Some (codepoints "Finder"); wi_number := Some (Some 5) |}].
    exists {| wi_name := Some (codepoints "UxPlay REFLECTOR-iphone");
              wi_number := Some (Some 42) |}.
    exists [Some {| wi_name := Some (codepoints "Reflector-iPhone");
                    wi_number := Some (Some 43) |}].
    split; [reflexivity|split; [reflexivity|split; [reflexivity|]]].
    repeat constructor; intros i E; injection E as <-; reflexivity.
Defined.

Lemma stream_chunks_multipart_witness :
  exists f data,
    encode_model f = Ok (Some data) /\
    mjpeg_chunk [255; 216; 255; 217] =
      bytes_of_string
        (String.append "--" (String.append BOUNDARY (String.append CRLF
          (String.append "Content-Type: image/jpeg" (String.append CRLF CRLF)))))
      ++ data ++ bytes_of_string CRLF.
Proof.
  destruct (stream_step true true encode_model (Some IPHONE_NAME) stream_init
              (tick_with (Some good_image))) as [[st' evs]|e] eqn:E;
    [|vm_compute in E; discriminate E].
  assert (I : In (EvYield (mjpeg_chunk [255; 216; 255; 217])) evs).
  { vm_compute in E; injection E as _ <-; simpl; tauto. }
  exact (proj1 (stream_chunks_multipart true true encode_model (Some IPHONE_NAME)
                  stream_init (tick_with (Some good_image)) st' evs _ E I)).
Defined.

Lemma reconciler_terminates_witness :
  (exists te, snd (keep_uxplay_windows_positioned true true
                     (env_failing (Some (1 # 2))) 3 0%Q) = Some te) /\
  ((fst (keep_uxplay_windows_positioned true true
           (env_failing (Some (1 # 2))) 3 0%Q) = [] /\ 4 == 0)%Q \/
     (4 <= 1 # 2)%Q \/
     exists pre ms tail title s ok,
       fst (keep_uxplay_windows_positioned true true
              (env_failing (Some (1 # 2))) 3 0%Q) = pre ++ ms ++ tail /\
       round_boundary pre /\ ms <> [] /\ (List.length ms <= 2)%nat /\
       Forall is_move ms /\ hd_error ms = Some (RMove title s ok) /\ (s < 1 # 2)%Q /\
       (tail = [] \/ tail = [RSleep AUTO_POSITION_INTERVAL_SEC]) /\
       (4 <= (1 # 2) + AUTO_POSITION_INTERVAL_SEC
               + sum_durs (env_failing (Some (1 # 2))) (move_count pre) (List.length ms))%Q) /\
  (exists pre title s,
     fst (keep_uxplay_windows_positioned true true env_succeeding 2 0%Q)
       = pre ++ [RMove title s true] /\
     snd (keep_uxplay_windows_positioned true true env_succeeding 2 0%Q)
       = Some (s + mv_dur (moves env_succeeding (move_count pre)))%Q).
Proof.
  destruct (reconciler_terminates true true (env_failing (Some (1 # 2))) 3 0%Q)
    as (_ & _ & _ & Hb & Ht).
  destruct (reconciler_terminates true true env_succeeding 2 0%Q) as (_ & _ & Hp & _).
  split; [|split].
  - apply (Ht (1 # 2) 2%nat); [reflexivity|reflexivity| |].
    + intros j; unfold Qle; simpl; lia.
    + unfold Qle; simpl; lia.
  - apply (Hb (1 # 2) 4%Q); reflexivity.
  - apply Hp.
    + exists 0%Q; simpl; tauto.
    + exists (0 + 0)%Q; simpl; tauto.
Defined.

(* ================================================================== *)
(** * Further properties of the program *)

Lemma bgra_nth (w : nat) row c :
  List.length row = (4 * w)%nat -> (c < w)%nat ->
  List.length (bgra_to_bgr row) = w /\
  nth_error (bgra_to_bgr row) c =
    Some (nth (4 * c) row 0, nth (4 * c + 1) row 0, nth (4 * c + 2) row 0).
Proof.
  revert row c; induction w as [|w IH]; intros row c L Hc; [lia|].
  destruct row as [|b [|g [|r [|a rest]]]]; simpl in L; try lia.
  assert (L' : List.length rest = (4 * w)%nat) by lia.
  destruct c as [|c].
  - simpl; split; [|reflexivity].
    destruct w as [|w].
    + destruct rest; [reflexivity|simpl in L'; lia].
    + f_equal; now apply (IH rest 0%nat); [|lia].
  - destruct (IH rest c L' ltac:(lia)) as [Lr Nr].
    split; [simpl; now rewrite Lr|].
    change (nth_error ((b, g, r) :: bgra_to_bgr rest) (S c) = Some
      (nth (4 * S c) (b :: g :: r :: a :: rest) 0, nth (4 * S c + 1) (b :: g :: r :: a :: rest) 0,
       nth (4 * S c + 2) (b :: g :: r :: a :: rest) 0)).
    transitivity (nth_error (bgra_to_bgr rest) c); [reflexivity|rewrite Nr].
    replace (4 * S c)%nat with (S (S (S (S (4 * c))))) by lia.
    replace (S (S (S (S (4 * c)))) + 1)%nat with (S (S (S (S (4 * c + 1))))) by lia.
    replace (S (S (S (S (4 * c)))) + 2)%nat with (S (S (S (S (4 * c + 2))))) by lia.
    reflexivity.
Qed.

Lemma bgra_length (w : nat) row :
  List.length row = (4 * w)%nat -> List.length (bgra_to_bgr row) = w.
Proof.
  revert row; induction w as [|w IH]; intros row L.
  - destruct row; [reflexivity|simpl in L; lia].
  - destruct row as [|b [|g [|r [|a rest]]]]; simpl in L; try lia.
    simpl; f_equal; apply IH; lia.
Qed.

Lemma chunks_length n rows l : List.length (chunks n rows l) = rows.
Proof. revert l; induction rows; intros l; simpl; auto. Qed.

Lemma chunks_nth n rows l r :
  (r < rows)%nat -> nth_error (chunks n rows l) r = Some (firstn n (skipn (r * n) l)).
Proof.
  revert l r; induction rows as [|rows IH]; intros l r H; [lia|].
  destruct r as [|r]; simpl; [reflexivity|].
  rewrite IH by lia. rewrite skipn_skipn. do 3 f_equal. lia.
Qed.

Lemma reshape_ok width height bpr raw f :
  reshape_window_pixels width height bpr raw = Ok f ->
  0 < width -> 0 < height ->
  List.length f = Z.to_nat height /\
  forall r, (r < Z.to_nat height)%nat ->
  exists row, nth_error f r = Some row /\ List.length row = Z.to_nat width /\
    forall c, (c < Z.to_nat width)%nat ->
      nth_error row c = Some (bgr_at raw (r * Z.to_nat bpr + 4 * c)).
Proof.
  unfold reshape_window_pixels.
  destruct (Z.of_nat (List.length raw) =? height * bpr) eqn:L; simpl; [|discriminate].
  destruct (height * Z.min bpr (width * 4) =? height * width * 4) eqn:M; simpl; [|discriminate].
  apply Z.eqb_eq in L; apply Z.eqb_eq in M.
  intros E Hw Hh; injection E as <-.
  assert (Mn : Z.min bpr (width * 4) = width * 4) by nia.
  assert (Hb : width * 4 <= bpr) by lia.
  assert (LR : List.length raw = (Z.to_nat height * Z.to_nat bpr)%nat) by lia.
  rewrite !length_map, chunks_length; split; [reflexivity|].
  intros r Hr.
  rewrite nth_error_map, nth_error_map, chunks_nth by exact Hr; simpl.
  rewrite firstn_firstn.
  replace (Init.Nat.min (Z.to_nat (width * 4)) (Z.to_nat bpr)) with (4 * Z.to_nat width)%nat by lia.
  assert (Lrow : List.length (firstn (4 * Z.to_nat width) (skipn (r * Z.to_nat bpr) raw))
                 = (4 * Z.to_nat width)%nat).
  { apply firstn_length_le. rewrite length_skipn, LR.
    assert (Hbn : (4 * Z.to_nat width <= Z.to_nat bpr)%nat) by lia.
    assert (Hr' : (S r <= Z.to_nat height)%nat) by lia.
    assert (Hm : (S r * Z.to_nat bpr <= Z.to_nat height * Z.to_nat bpr)%nat)
      by (apply Nat.mul_le_mono_r; exact Hr').
    simpl in Hm. lia. }
  eexists; split; [reflexivity|]. split; [now apply bgra_length|].
  intros c Hc. destruct (bgra_nth _ _ c Lrow Hc) as [_ ->].
  unfold bgr_at. rewrite !nth_firstn, !nth_skipn.
  replace ((4 * c <? 4 * Z.to_nat width)%nat) with true by (symmetry; apply Nat.ltb_lt; lia).
  replace ((4 * c + 1 <? 4 * Z.to_nat width)%nat) with true by (symmetry; apply Nat.ltb_lt; lia).
  replace ((4 * c + 2 <? 4 * Z.to_nat width)%nat) with true by (symmetry; apply Nat.ltb_lt; lia).
  replace (r * Z.to_nat bpr + (c + (c + (c + (c + 0)))))%nat with (r * Z.to_nat bpr + 4 * c)%nat by lia.
  rewrite <- !Nat.add_assoc; reflexivity.
Qed.

(** X1: a frame returned by [macos_capture_window_bgr] has exactly
    [height] rows of exactly [width] pixels, and the pixel in row [r],
    column [c] holds the B, G, R bytes at offset [r * bytes_per_row + 4 * c]
    of the image data (the alpha byte and the row padding are dropped). *)
Theorem capture_frame_layout cg_ok image f :
  macos_capture_window_bgr cg_ok image = Ok (Some f) ->
  exists img d, image = Some img /\ img_data img = Some d /\
    List.length f = Z.to_nat (img_height img) /\
    forall r, (r < Z.to_nat (img_height img))%nat ->
    exists row, nth_error f r = Some row /\ List.length row = Z.to_nat (img_width img) /\
      forall c, (c < Z.to_nat (img_width img))%nat ->
        nth_error row c =
          Some (bgr_at (cf_bytes d) (r * Z.to_nat (img_bytes_per_row img) + 4 * c)).
Proof.
  unfold macos_capture_window_bgr.
  destruct cg_ok; simpl; [|discriminate].
  destruct image as [img|]; [|discriminate].
  destruct ((img_width img <=? 0) || (img_height img <=? 0)) eqn:D; [discriminate|].
  apply orb_false_iff in D as [Dw Dh]; apply Z.leb_gt in Dw; apply Z.leb_gt in Dh.
  destruct (negb (img_bits_per_pixel img =? 32)); [discriminate|].
  destruct (img_data img) as [d|] eqn:Ed; [|discriminate].
  destruct (cf_ptr_null d || (Z.of_nat (List.length (cf_bytes d)) <=? 0)); [discriminate|].
  destruct (reshape_window_pixels (img_width img) (img_height img) (img_bytes_per_row img)
              (cf_bytes d)) as [f0|e] eqn:R; simpl; [|discriminate].
  intros E; injection E as <-.
  exists img, d; split; [reflexivity|split; [exact Ed|]].
  exact (reshape_ok _ _ _ _ _ R Dw Dh).
Qed.

(** X2: [macos_capture_window_bgr] returns [None] exactly when the
    libraries are unavailable, the image is null, a dimension is not
    positive, the depth is not 32 bits per pixel, the data is null, or its
    byte pointer is null or its length is zero. *)
Theorem capture_none_iff cg_ok image :
  macos_capture_window_bgr cg_ok image = Ok None <->
  cg_ok = false \/ image = None \/
  exists img, image = Some img /\
    (img_width img <= 0 \/ img_height img <= 0 \/ img_bits_per_pixel img <> 32 \/
     img_data img = None \/
     exists d, img_data img = Some d /\ (cf_ptr_null d = true \/ cf_bytes d = [])).
Proof.
  unfold macos_capture_window_bgr.
  destruct cg_ok; simpl; [|split; auto].
  destruct image as [img|]; [|split; auto].
  assert (NR : forall w h b raw,
    bind (reshape_window_pixels w h b raw) (fun f => Ok (Some f)) <> Ok None).
  { intros w h b raw; destruct (reshape_window_pixels w h b raw); simpl; discriminate. }
  split.
  - intros H. right; right; exists img; split; [reflexivity|].
    destruct (img_width img <=? 0) eqn:Dw; [left; now apply Z.leb_le|].
    destruct (img_height img <=? 0) eqn:Dh; [right; left; now apply Z.leb_le|].
    simpl in H.
    destruct (img_bits_per_pixel img =? 32) eqn:Db; simpl in H;
      [|right; right; left; now apply Z.eqb_neq].
    destruct (img_data img) as [d|] eqn:Ed; [|right; right; right; now left].
    right; right; right; right; exists d; split; [reflexivity|].
    destruct (cf_ptr_null d); [now left|right].
    destruct (cf_bytes d) as [|x l]; [reflexivity|].
    simpl in H. exfalso; eapply NR; exact H.
  - intros [H|[H|(i & E & H)]]; try discriminate.
    injection E as <-.
    destruct H as [H|[H|[H|[H|(d & Ed & H)]]]].
    + apply Z.leb_le in H; now rewrite H.
    + apply Z.leb_le in H; now rewrite H, orb_true_r.
    + apply Z.eqb_neq in H; rewrite H.
      now destruct ((img_width img <=? 0) || (img_height img <=? 0)).
    + rewrite H. now destruct ((img_width img <=? 0) || (img_height img <=? 0)),
                              (negb (img_bits_per_pixel img =? 32)).
    + rewrite Ed. destruct ((img_width img <=? 0) || (img_height img <=? 0)),
                           (negb (img_bits_per_pixel img =? 32)); try reflexivity.
      destruct H as [H|H]; rewrite H; [reflexivity|now destruct (cf_ptr_null d)].
Qed.

(** X3: [macos_capture_window_bgr] raises exactly when every guard passes
    but the data length differs from [height * bytes_per_row] or a row is
    shorter than [4 * width] bytes; with a consistent buffer it never raises. *)
Theorem capture_raises_iff cg_ok image :
  (exists e, macos_capture_window_bgr cg_ok image = Raise e) <->
  cg_ok = true /\
  exists img d, image = Some img /\ 0 < img_width img /\ 0 < img_height img /\
    img_bits_per_pixel img = 32 /\ img_data img = Some d /\
    cf_ptr_null d = false /\ cf_bytes d <> [] /\
    (Z.of_nat (List.length (cf_bytes d)) <> img_height img * img_bytes_per_row img \/
     img_bytes_per_row img < 4 * img_width img).
Proof.
  unfold macos_capture_window_bgr.
  destruct cg_ok; cbn [negb]; [|split; [intros [e H]; discriminate|intros [H _]; discriminate]].
  destruct image as [img|];
    [|split; [intros [e H]; discriminate|intros [_ (i & d & H & _)]; discriminate]].
  destruct (img_width img <=? 0) eqn:Dw; cbn [orb negb].
  { split; [intros [e H]; discriminate|].
    intros [_ (i & d & E & W & _)]; injection E as <-; apply Z.leb_le in Dw; lia. }
  destruct (img_height img <=? 0) eqn:Dh; cbn [orb negb].
  { split; [intros [e H]; discriminate|].
    intros [_ (i & d & E & _ & Hh & _)]; injection E as <-; apply Z.leb_le in Dh; lia. }
  apply Z.leb_gt in Dw; apply Z.leb_gt in Dh.
  destruct (img_bits_per_pixel img =? 32) eqn:Db; cbn [orb negb].
  2:{ split; [intros [e H]; discriminate|].
      intros [_ (i & d & E & _ & _ & B & _)]; injection E as <-; apply Z.eqb_neq in Db; lia. }
  apply Z.eqb_eq in Db.
  destruct (img_data img) as [d|] eqn:Ed.
  2:{ split; [intros [e H]; discriminate|].
      intros [_ (i & d & E & _ & _ & _ & D & _)]; injection E as <-; congruence. }
  destruct (cf_ptr_null d) eqn:Pn; cbn [orb negb].
  { split; [intros [e H]; discriminate|].
    intros [_ (i & d' & E & _ & _ & _ & D & P & _)]; injection E as <-; congruence. }
  destruct (cf_bytes d) as [|x l] eqn:Bd; cbn [orb negb].
  { split; [intros [e H]; discriminate|].
    intros [_ (i & d' & E & _ & _ & _ & D & P & N & _)]; injection E as <-.
    rewrite Ed in D; injection D as <-; congruence. }
  unfold reshape_window_pixels.
  split.
  - intros [e H]. split; [reflexivity|].
    exists img, d.
    split; [reflexivity|]. split; [exact Dw|]. split; [exact Dh|]. split; [exact Db|].
    split; [exact Ed|]. split; [exact Pn|]. rewrite Bd. split; [discriminate|].
    destruct (Z.of_nat (List.length (x :: l)) =? img_height img * img_bytes_per_row img) eqn:L;
      simpl in H; [|left; now apply Z.eqb_neq].
    right.
    destruct (img_height img * Z.min (img_bytes_per_row img) (img_width img * 4) =?
              img_height img * img_width img * 4) eqn:M; simpl in H; [discriminate|].
    apply Z.eqb_neq in M.
    destruct (Z.le_gt_cases (4 * img_width img) (img_bytes_per_row img)); [|lia].
    exfalso; apply M; rewrite Z.min_r by lia; ring.
  - intros [_ (i & d' & E & _ & _ & _ & D & _ & _ & H)].
    injection E as <-; rewrite Ed in D; injection D as <-; rewrite Bd in H.
    destruct (Z.of_nat (List.length (x :: l)) =? img_height img * img_bytes_per_row img) eqn:L;
      simpl; [|eexists; reflexivity].
    apply Z.eqb_eq in L.
    destruct H as [H|H]; [contradiction|].
    destruct (img_height img * Z.min (img_bytes_per_row img) (img_width img * 4) =?
              img_height img * img_width img * 4) eqn:M; simpl; [|eexists; reflexivity].
    apply Z.eqb_eq in M. rewrite Z.min_l in M by lia. nia.
Qed.

Lemma outputs_app l1 l2 : outputs (l1 ++ l2) = outputs l1 ++ outputs l2.
Proof. induction l1 as [|[] l1 IH]; simpl; congruence. Qed.

Lemma outputs_silent l : Forall not_output l -> outputs l = [].
Proof. induction 1 as [|[] l H _ IH]; simpl in *; tauto || congruence. Qed.


Section StreamExtra.
Variable darwin : bool.
Variable cg_ok : bool.
Variable imencode : frame -> result (option (list Z)).
Variable title : option string.

(** X4: without a (truthy) title or off macOS, an iteration of
    [mjpeg_stream] neither looks up nor captures a window, keeps its state,
    begins by grabbing the region, and raises exactly when that grab
    raises, when [cv2.cvtColor] raises on the grabbed array, or when the
    encoder raises; an empty grab always ends it with [cv2.error]. *)
Theorem stream_without_window_grabs st tk :
  truthy title && darwin = false ->
  (forall e, stream_step darwin cg_ok imencode title st tk = Raise e <->
     tk_grab tk = Raise e \/
     exists raw, tk_grab tk = Ok raw /\
       (cvt_bgra2bgr raw = Raise e \/
        exists f, cvt_bgra2bgr raw = Ok f /\ imencode f = Raise e)) /\
  (forall st' evs, stream_step darwin cg_ok imencode title st tk = Ok (st', evs) ->
     st' = st /\ lookup_times evs = [] /\ captures evs = [] /\
     exists rest, evs = EvGrab :: rest) /\
  (forall raw, tk_grab tk = Ok raw -> (raw = [] \/ exists rest, raw = [] :: rest) ->
     stream_step darwin cg_ok imencode title st tk = Raise CvError).
Proof.
  intros T.
  unfold stream_step, acquire, window_phase; rewrite T; simpl.
  split; [|split].
  - intros e; destruct (tk_grab tk) as [raw|e0]; simpl.
    + destruct (cvt_bgra2bgr raw) as [f|e1] eqn:C; simpl.
      * destruct (imencode f) as [[d|]|e2] eqn:I; simpl; split;
          [discriminate| |discriminate| |
           intros H; right; exists raw;
           split; [reflexivity|right; exists f; split; congruence] |];
          intros [H|(raw' & G & [H|(f' & H1 & H2)])]; try discriminate;
          injection G as G; subst raw'; try congruence;
          rewrite C in H1; injection H1 as H1; subst f'; congruence.
      * split; [intros H; right; exists raw; split; [reflexivity|left; congruence]|].
        intros [H|(raw' & G & [H|(f' & H1 & H2)])]; try discriminate;
          injection G as G; subst raw'; congruence.
    + split; [intros H; left; congruence|].
      intros [H|(raw' & G & _)]; [congruence|discriminate].
  - intros st' evs; destruct (tk_grab tk) as [raw|e0]; simpl; [|discriminate].
    destruct (cvt_bgra2bgr raw) as [f|e1]; simpl; [|discriminate].
    destruct (imencode f) as [[d|]|e2]; simpl; [| |discriminate];
      intros H; injection H as <- <-; repeat split; eexists; reflexivity.
  - intros raw -> E.
    destruct E as [->|(rest & ->)]; reflexivity.
Qed.

Lemma stream_iters_outputs st tks :
  exists cs,
    outputs (fst (stream_iters darwin cg_ok imencode title st tks))
      = flat_map (fun c => [EvYield c; EvSleep frame_delay]) cs /\
    Forall (fun c => exists f data, imencode f = Ok (Some data) /\ c = mjpeg_chunk data) cs.
Proof.
  revert st; induction tks as [|tk tks IH]; intros st; simpl.
  - exists []; split; [reflexivity|constructor].
  - destruct (stream_step darwin cg_ok imencode title st tk) as [[st' evs]|e] eqn:S;
      simpl; [|exists []; split; [reflexivity|constructor]].
    destruct (IH st') as (cs & E & F).
    destruct (stream_iters darwin cg_ok imencode title st' tks) as [evs' r]; simpl in *.
    rewrite outputs_app, E.
    unfold stream_step in S.
    destruct (acquire darwin cg_ok title st tk) as [[[st1 f] evs1]|e] eqn:A;
      simpl in S; [|discriminate].
    apply acquire_events in A.
    destruct (imencode f) as [[data|]|e] eqn:Ef; simpl in S; [| |discriminate];
      injection S as <- <-.
    + exists (mjpeg_chunk data :: cs); split.
      * rewrite outputs_app, (outputs_silent _ A); reflexivity.
      * constructor; [exists f, data; split; [exact Ef|reflexivity]|exact F].
    + exists cs; split; [rewrite (outputs_silent _ A); reflexivity|exact F].
Qed.

(** X5: in a run of [mjpeg_stream], each yield of a multipart chunk built
    from an encoder output is followed by a sleep of [frame_delay] before
    anything else is yielded; only the last chunk of a run that ended
    without an exception may stand without its sleep, the generator being
    suspended at that [yield]. *)
Theorem stream_run_outputs st tks :
  exists cs,
    Forall (fun c => exists f data, imencode f = Ok (Some data) /\ c = mjpeg_chunk data) cs /\
    (outputs (fst (stream_run darwin cg_ok imencode title st tks))
       = flat_map (fun c => [EvYield c; EvSleep frame_delay]) cs \/
     exists c, snd (stream_run darwin cg_ok imencode title st tks) = None /\
       (exists f data, imencode f = Ok (Some data) /\ c = mjpeg_chunk data) /\
       outputs (fst (stream_run darwin cg_ok imencode title st tks))
         = flat_map (fun c => [EvYield c; EvSleep frame_delay]) cs ++ [EvYield c]).
Proof.
  destruct (stream_iters_outputs st tks) as (cs & E & F).
  destruct (stream_run_iters darwin cg_ok imencode title st tks) as [Sn [L|(d & L)]].
  - exists cs; split; [exact F|left; rewrite L; exact E].
  - rewrite L, outputs_app in E; simpl in E.
    destruct cs as [|c cs] using rev_ind; [destruct (outputs _); discriminate|].
    rewrite flat_map_app in E; simpl in E.
    replace (flat_map (fun c0 => [EvYield c0; EvSleep frame_delay]) cs ++
               [EvYield c; EvSleep frame_delay])
      with ((flat_map (fun c0 => [EvYield c0; EvSleep frame_delay]) cs ++
               [EvYield c]) ++ [EvSleep frame_delay]) in E
      by (rewrite <- app_assoc; reflexivity).
    apply app_inj_tail in E; destruct E as [E _].
    apply Forall_app in F; destruct F as [F Fc]; inversion Fc as [|? ? Hc]; subst.
    exists cs; split; [exact F|right; exists c; split; [|split; [exact Hc|exact E]]].
    rewrite Sn.
    destruct (stream_iters darwin cg_ok imencode title st tks) as [evs [e|]] eqn:I;
      [|reflexivity].
    unfold stream_run in L; rewrite I in L; simpl in L.
    apply (f_equal (@List.length event)) in L; rewrite length_app in L; simpl in L; lia.
Qed.



End StreamExtra.

(** X8: if [stop_event] is never set and every [set_window_bounds] call
    fails, [keep_uxplay_windows_positioned]'s loop never returns, for any
    number of rounds: it does not give up on its own. *)
Theorem reconciler_retries_forever env fuel t k iphone_done ipad_done :
  stop_at env = None ->
  (forall j, mv_ok (moves env j) = false) ->
  iphone_done && ipad_done = false ->
  snd (recon_loop env fuel t k iphone_done ipad_done) = None.
Proof.
  intros Hs Hm; revert t k iphone_done ipad_done.
  induction fuel as [|fuel IH]; intros t k id ad D; [reflexivity|].
  rewrite recon_loop_S.
  unfold is_set at 1; rewrite Hs.
  unfold move_if_needed.
  destruct id, ad; simpl in D; try discriminate; rewrite ?Hm; cbn -[recon_loop];
    match goal with
    | |- context [recon_loop env fuel ?t' ?k' ?a ?b] =>
        specialize (IH t' k' a b); destruct (recon_loop env fuel t' k' a b); simpl in *;
        apply IH; reflexivity
    end.
Qed.

(** X10: with an empty title substring (which the lowercase mapping keeps
    empty), [macos_find_window_id] ignores the titles and returns the number of the first non-null entry whose
    window number is present and readable. *)
Theorem find_window_empty_substring py_lower infos n :
  py_lower [] = [] ->
  macos_find_window_id py_lower true (Some infos) [] = Some n <->
  exists pre info post, infos = pre ++ Some info :: post /\
    wi_number info = Some (Some n) /\
    Forall (fun e => forall i m, e = Some i -> wi_number i <> Some (Some m)) pre.
Proof.
  intros L0.
  unfold macos_find_window_id; simpl; rewrite L0.
  assert (U : forall e m, usable_window py_lower [] e m <->
                          exists i, e = Some i /\ wi_number i = Some (Some m)).
  { intros e m; split.
    - intros (i & E & _ & N); eauto.
    - intros (i & E & N); exists i; split; [exact E|split; [apply containsb_empty|exact N]]. }
  rewrite scan_windows_some; split.
  - intros (pre & e & post & E & Ue & F).
    apply U in Ue as (i & -> & N).
    exists pre, i, post; split; [exact E|split; [exact N|]].
    eapply Forall_impl; [|exact F]; intros e' H i' m E' N'.
    apply (H m), U; eauto.
  - intros (pre & i & post & E & N & F).
    exists pre, (Some i), post; split; [exact E|split; [apply U; eauto|]].
    eapply Forall_impl; [|exact F]; intros e' H m Ue'.
    apply U in Ue' as (i' & E' & N'); exact (H i' m E' N').
Qed.

Lemma init_calls_loaded darwin st outs :
  macos_cg st = CGLoaded -> macos_cf_set st = true -> macos_keys_set st = true ->
  init_calls darwin st outs = (repeat true (List.length outs), O).
Proof.
  intros C F K; induction outs as [|ok outs IH]; simpl; [reflexivity|].
  unfold macos_init_window_capture; rewrite C, F, K; simpl; rewrite IH; reflexivity.
Qed.

Lemma init_calls_failed darwin st outs :
  macos_cg st = CGFalse ->
  init_calls darwin st outs = (repeat false (List.length outs), O).
Proof.
  intros C; induction outs as [|ok outs IH]; simpl; [reflexivity|].
  unfold macos_init_window_capture; rewrite C; simpl; rewrite IH; reflexivity.
Qed.

(** X11: the first call of [_macos_init_window_capture] decides every
    later one: all calls return [True] when the first one (on macOS) loaded
    the libraries, [False] otherwise; the libraries are loaded at most once,
    never off macOS, and a failed load is never retried. *)
Theorem init_first_call_decides darwin ok outs :
  init_calls darwin init_globals (ok :: outs)
    = (repeat (darwin && ok) (S (List.length outs)), if darwin then 1%nat else 0%nat).
Proof.
  simpl; unfold macos_init_window_capture; simpl.
  destruct darwin, ok; simpl;
    [rewrite init_calls_loaded | rewrite init_calls_failed | rewrite init_calls_failed
    | rewrite init_calls_failed]; reflexivity.
Qed.

Lemma py_round_bounds q :
  (inject_Z (py_round q) - (1 # 2) <= q <= inject_Z (py_round q) + (1 # 2))%Q.
Proof.
  unfold py_round.
  pose proof (Qfloor_le q) as L; pose proof (Qlt_floor q) as U.
  set (fl := Qfloor q) in *.
  assert (P : inject_Z (fl + 1) == inject_Z fl + 1) by (rewrite inject_Z_plus; reflexivity).
  rewrite P in U.
  destruct (Qcompare (q - inject_Z fl) (1 # 2)) eqn:C.
  - apply Qeq_alt in C.
    destruct (Z.even fl); [|rewrite P]; split; lra.
  - apply Qlt_alt in C; split; lra.
  - apply Qgt_alt in C; rewrite P; split; lra.
Qed.

Lemma py_round_comp p q : (p == q)%Q -> py_round p = py_round q.
Proof.
  intros E; unfold py_round. rewrite (Qfloor_comp p q E).
  assert (F : (p - inject_Z (Qfloor q) == q - inject_Z (Qfloor q))%Q) by (rewrite E; reflexivity).
  rewrite (Qcompare_comp _ _ F (1 # 2) (1 # 2) (Qeq_refl _)); reflexivity.
Qed.

Lemma py_round_Z z : py_round (inject_Z z) = z.
Proof.
  unfold py_round; rewrite Qfloor_Z.
  replace (Qcompare (inject_Z z - inject_Z z) (1 # 2)) with Lt; [reflexivity|].
  symmetry; apply (proj1 (Qlt_alt _ _)); lra.
Qed.

Lemma scaled_side_q (s m : Z) :
  0 < m -> s <= m ->
  (inject_Z s * (inject_Z MAX_LOGO_DIMENSION / inject_Z m) <= inject_Z MAX_LOGO_DIMENSION)%Q.
Proof.
  intros Hm Hs; destruct m as [|p|p]; try lia.
  unfold Qle, Qmult, Qdiv, Qinv, inject_Z, MAX_LOGO_DIMENSION; simpl; nia.
Qed.

Lemma scaled_side_le (s m : Z) :
  0 < m -> s <= m ->
  py_round (inject_Z s * (inject_Z MAX_LOGO_DIMENSION / inject_Z m)) <= MAX_LOGO_DIMENSION.
Proof.
  intros Hm Hs.
  pose proof (scaled_side_q s m Hm Hs) as Q.
  pose proof (py_round_bounds (inject_Z s * (inject_Z MAX_LOGO_DIMENSION / inject_Z m))) as [B _].
  set (q := (inject_Z s * (inject_Z MAX_LOGO_DIMENSION / inject_Z m))%Q) in *.
  set (r := py_round q) in *.
  destruct (Z.le_gt_cases r MAX_LOGO_DIMENSION) as [H|H]; [exact H|exfalso].
  assert (H' : (inject_Z (MAX_LOGO_DIMENSION + 1) <= inject_Z r)%Q)
    by (rewrite <- Zle_Qle; unfold MAX_LOGO_DIMENSION in *; lia).
  rewrite inject_Z_plus in H'.
  assert (M : inject_Z MAX_LOGO_DIMENSION == 1024) by reflexivity.
  assert (O : inject_Z 1 == 1%Q) by reflexivity.
  rewrite M in Q, H'; rewrite O in H'; lra.
Qed.

Lemma scaled_longest (m : Z) :
  0 < m ->
  py_round (inject_Z m * (inject_Z MAX_LOGO_DIMENSION / inject_Z m)) = MAX_LOGO_DIMENSION.
Proof.
  intros Hm.
  rewrite (py_round_comp _ (inject_Z MAX_LOGO_DIMENSION)); [apply py_round_Z|].
  rewrite Qmult_div_r; [reflexivity|].
  intros E. unfold Qeq in E; simpl in E. lia.
Qed.

(** X13: a decoded logo whose larger side exceeds [MAX_LOGO_DIMENSION] is
    resized so that both sides are between 1 and [MAX_LOGO_DIMENSION] and the
    larger one is exactly [MAX_LOGO_DIMENSION] (with [width * scale] computed
    exactly). *)
Theorem fit_logo_bounds resample img :
  Z.max (im_height img) (im_width img) > MAX_LOGO_DIMENSION ->
  1 <= im_height (fit_logo resample img) <= MAX_LOGO_DIMENSION /\
  1 <= im_width (fit_logo resample img) <= MAX_LOGO_DIMENSION /\
  Z.max (im_height (fit_logo resample img)) (im_width (fit_logo resample img))
    = MAX_LOGO_DIMENSION.
Proof.
  intros H; unfold fit_logo.
  replace (Z.max (im_height img) (im_width img) >? MAX_LOGO_DIMENSION) with true
    by (symmetry; apply Z.gtb_lt; lia).
  simpl.
  set (m := Z.max (im_height img) (im_width img)) in *.
  assert (Hm : 0 < m) by (unfold MAX_LOGO_DIMENSION in H; lia).
  pose proof (scaled_side_le (im_height img) m Hm ltac:(unfold m; lia)) as Bh.
  pose proof (scaled_side_le (im_width img) m Hm ltac:(unfold m; lia)) as Bw.
  assert (L : m = im_height img \/ m = im_width img) by (unfold m; lia).
  pose proof (scaled_longest m Hm) as Lg.
  destruct L as [L|L]; rewrite <- L in *; unfold MAX_LOGO_DIMENSION in *; lia.
Qed.

Lemma fit_logo_within resample img :
  1 <= im_height img -> 1 <= im_width img ->
  1 <= im_height (fit_logo resample img) <= MAX_LOGO_DIMENSION /\
  1 <= im_width (fit_logo resample img) <= MAX_LOGO_DIMENSION.
Proof.
  intros H1 W1; unfold fit_logo.
  destruct (Z.max (im_height img) (im_width img) >? MAX_LOGO_DIMENSION) eqn:G.
  - apply Z.gtb_lt in G; simpl.
    set (m := Z.max (im_height img) (im_width img)) in *.
    assert (Hm : 0 < m) by (unfold MAX_LOGO_DIMENSION in G; lia).
    pose proof (scaled_side_le (im_height img) m Hm ltac:(unfold m; lia)) as Bh.
    pose proof (scaled_side_le (im_width img) m Hm ltac:(unfold m; lia)) as Bw.
    unfold MAX_LOGO_DIMENSION in *; lia.
  - rewrite Z.gtb_ltb in G; apply Z.ltb_ge in G; lia.
Qed.

(** X20: as long as [cv2.imdecode] yields images with positive sides,
    every sequence of [POST /logo] requests keeps the stored logo within
    [MAX_LOGO_DIMENSION] on both sides, whatever the uploads and whether
    each write succeeds. *)
Theorem upload_logo_keeps_bound imdecode resample reqs logo :
  (forall data img, imdecode data = Some img -> 1 <= im_height img /\ 1 <= im_width img) ->
  logo_within logo ->
  logo_within (upload_requests imdecode resample reqs logo).
Proof.
  intros D; unfold upload_requests; revert logo.
  induction reqs as [|[[file ok] mt] reqs IH]; intros logo L; simpl; [exact L|].
  apply IH; clear IH.
  unfold upload_logo.
  destruct file as [[filename data]|]; [|exact L].
  destruct (String.eqb filename EmptyString); [exact L|].
  destruct data as [|b data]; [exact L|].
  destruct (Z.of_nat (List.length (b :: data)) >? MAX_LOGO_BYTES); [exact L|].
  destruct (imdecode (b :: data)) as [img|] eqn:E; [|exact L].
  destruct ok; [|exact L].
  destruct (D _ _ E) as [H1 W1]; simpl.
  exact (fit_logo_within resample img H1 W1).
Qed.

Lemma shutdown_proc_events p label label' :
  (In (Terminate label') (shutdown_proc p label) <-> label' = label /\ px_running p = true) /\
  (In (Kill label') (shutdown_proc p label) <->
     label' = label /\ px_running p = true /\
     (px_terminate_ok p = false \/ px_wait_ok p = false)) /\
  (forall s, In (SPrint s) (shutdown_proc p label) -> s = "[!] Terminating {label} UxPlay..."%string) /\
  ~ In SetStop (shutdown_proc p label).
Proof.
  unfold shutdown_proc.
  destruct (px_running p), (px_terminate_ok p), (px_wait_ok p); simpl;
    repeat split; intros;
    repeat match goal with
           | H : _ \/ _ |- _ => destruct H
           | H : _ /\ _ |- _ => destruct H
           | H : Terminate _ = Terminate _ |- _ => injection H as H
           | H : Kill _ = Kill _ |- _ => injection H as H
           | H : SPrint _ = SPrint _ |- _ => injection H as H
           end;
    subst; auto; try discriminate; try contradiction.
  all: intros H; repeat destruct H as [H|H]; discriminate H || destruct H.
Qed.

(** X19: on exit, [main] first sets the reconciler's stop event (once),
    then terminates each UxPlay process still running (and only those), and
    kills a process exactly when it was running and its [terminate()] or
    its [wait(timeout=3)] raised; its messages print the text [{label}]
    literally. *)
Theorem main_shutdown_terminates_running iphone_proc ipad_proc :
  exists rest, main_shutdown iphone_proc ipad_proc = SetStop :: rest /\
  ~ In SetStop rest /\
  (In (Terminate "iPhone") rest <-> px_running iphone_proc = true) /\
  (In (Terminate "iPad") rest <-> px_running ipad_proc = true) /\
  (In (Kill "iPhone") rest <-> px_running iphone_proc = true /\
     (px_terminate_ok iphone_proc = false \/ px_wait_ok iphone_proc = false)) /\
  (In (Kill "iPad") rest <-> px_running ipad_proc = true /\
     (px_terminate_ok ipad_proc = false \/ px_wait_ok ipad_proc = false)) /\
  (forall s, In (SPrint s) rest -> s = "[!] Terminating {label} UxPlay..."%string).
Proof.
  exists (shutdown_proc iphone_proc "iPhone" ++ shutdown_proc ipad_proc "iPad").
  split; [reflexivity|].
  destruct (shutdown_proc_events iphone_proc "iPhone" "iPhone") as (Ti & Ki & Pi & Si).
  destruct (shutdown_proc_events iphone_proc "iPhone" "iPad") as (Ti' & Ki' & _ & _).
  destruct (shutdown_proc_events ipad_proc "iPad" "iPad") as (Ta & Ka & Pa & Sa).
  destruct (shutdown_proc_events ipad_proc "iPad" "iPhone") as (Ta' & Ka' & _ & _).
  split.
  { rewrite in_app_iff; intros [H|H]; [exact (Si H)|exact (Sa H)]. }
  split; [|split; [|split; [|split; [|intros s H; rewrite in_app_iff in H;
                                    destruct H as [H|H]; [exact (Pi s H)|exact (Pa s H)]]]]].
  all: rewrite in_app_iff.
  - rewrite Ti, Ta'; intuition discriminate.
  - rewrite Ti', Ta; intuition discriminate.
  - rewrite Ki, Ka'; intuition discriminate.
  - rewrite Ki', Ka; intuition discriminate.
Qed.

(* ------------------------------------------------------------------ *)
(** ** Witnesses of the further properties *)

Lemma capture_frame_layout_witness :
  macos_capture_window_bgr true (Some padded_image)
    = Ok (Some [[(1, 2, 3); (4, 5, 6)]; [(7, 8, 9); (10, 11, 12)]]) /\
  exists row,
    nth_error [[(1, 2, 3); (4, 5, 6)]; [(7, 8, 9); (10, 11, 12)]] 1 = Some row /\
    nth_error row 1 = Some (bgr_at [1; 2; 3; 255; 4; 5; 6; 255; 0; 0; 0; 0;
                                    7; 8; 9; 255; 10; 11; 12; 255; 0; 0; 0; 0] 16).
Proof.
  split; [reflexivity|].
  destruct (capture_frame_layout true (Some padded_image)
              [[(1, 2, 3); (4, 5, 6)]; [(7, 8, 9); (10, 11, 12)]] eq_refl)
    as (img & d & E & Ed & _ & P).
  injection E as <-; simpl in Ed; injection Ed as <-.
  destruct (P 1%nat) as (row & Hr & _ & Pc); [simpl; lia|].
  exists row; split; [exact Hr|].
  exact (Pc 1%nat ltac:(simpl; lia)).
Defined.

Lemma stream_without_window_grabs_witness :
  match stream_step true true encode_model None stream_init tick_region with
  | Ok (st', evs) => st' = stream_init /\ captures evs = [] /\ lookup_times evs = []
  | Raise _ => False
  end /\
  stream_step true true encode_model None stream_init tick_empty = Raise CvError.
Proof.
  split.
  - destruct (stream_step true true encode_model None stream_init tick_region)
      as [[st' evs]|e] eqn:E; [|vm_compute in E; discriminate E].
    destruct (proj1 (proj2 (stream_without_window_grabs true true encode_model None
                              stream_init tick_region eq_refl)) st' evs E)
      as (S & L & C & _).
    split; [exact S|split; [exact C|exact L]].
  - exact (proj2 (proj2 (stream_without_window_grabs true true encode_model None
                           stream_init tick_empty eq_refl)) [] eq_refl (or_introl eq_refl)).
Defined.



Lemma find_window_empty_substring_witness :
  macos_find_window_id py_lower_ascii true registry_sample [] = Some 3.
Proof.
  apply (proj2 (find_window_empty_substring py_lower_ascii _ 3 eq_refl)).
  exists [], {| wi_name := None; wi_number := Some (Some 3) |}.
  eexists; split; [reflexivity|split; [reflexivity|constructor]].
Defined.

Lemma reconciler_retries_forever_witness :
  snd (recon_loop (env_failing None) 5 0%Q 0 false false) = None.
Proof.
  apply (reconciler_retries_forever (env_failing None) 5 0%Q 0 false false).
  - reflexivity.
  - intros j; reflexivity.
  - reflexivity.
Defined.

Lemma fit_logo_bounds_witness :
  Z.max (im_height (fit_logo resample_none logo_large))
        (im_width (fit_logo resample_none logo_large)) = MAX_LOGO_DIMENSION.
Proof.
  apply (fit_logo_bounds resample_none logo_large).
  unfold MAX_LOGO_DIMENSION; simpl; lia.
Defined.

Lemma upload_logo_keeps_bound_witness :
  logo_within (upload_requests decode_large resample_none
                 [(Some ("logo.png"%string, [1]), true, Some 5)] None).
Proof.
  apply (upload_logo_keeps_bound decode_large resample_none
           [(Some ("logo.png"%string, [1]), true, Some 5)] None).
  - intros data img E; injection E as <-; simpl; lia.
  - exact I.
Defined.
